(** * cables.guide: the cable data layer and the card renderer

    A shallow embedding of [src/utils/cableData.ts] (record loader,
    category catalog, derived metrics, slug resolver, search) and of
    [src/scripts/cableCard.ts] (card renderer), with the properties of the
    specification stated and proved over it.

    Modelling conventions.
    - A JavaScript string is a [string]: a sequence of 8-bit code units,
      the UTF-8 bytes of the text.  Case mapping, white space and the [i]
      flag are those of ASCII, which is what the code does on ASCII text;
      a statement that depends on how other characters are treated carries
      the hypothesis that the text is ASCII ([is_ascii]).
    - A JavaScript number is a rational [Q].  Every finite double is a
      rational and [>=], [Math.max] and truthiness on doubles agree with the
      same operations on their rational values.  Numbers read from a text
      and the product [value * 1000] are exact here; a statement that
      depends on it carries the hypothesis that the number is an integer
      short enough to be exact in a double.
    - An optional field ([T | undefined], [T | null]) is an [option].
    - The Node file system, [JSON.parse], [localeCompare] and
      [Number::toString] belong to the platform and are parameters.
    - A thrown exception is the [inl] of a sum; [console.error] appends to
      a log that is threaded through the loader. *)

From Stdlib Require Import Bool List Arith ZArith QArith Qminmax Lia.
From Stdlib Require Import Permutation Sorted.
From Stdlib Require Import Ascii String.
Import ListNotations.

Open Scope string_scope.
Open Scope bool_scope.

(* ================================================================= *)
(** ** Characters and strings *)

Module Js.

Definition code (c : ascii) : nat := nat_of_ascii c.

Definition in_range (lo hi : nat) (c : ascii) : bool :=
  (lo <=? code c)%nat && (code c <=? hi)%nat.

Definition is_upper (c : ascii) : bool := in_range 65 90 c.
Definition is_lower (c : ascii) : bool := in_range 97 122 c.
Definition is_digit (c : ascii) : bool := in_range 48 57 c.

(** The ASCII characters of [\s]: TAB, LF, VT, FF, CR, SPACE.  The white
    space outside ASCII (the no-break space and others) is not covered. *)
Definition is_space (c : ascii) : bool :=
  in_range 9 13 c || (code c =? 32)%nat.

Definition lower_char (c : ascii) : ascii :=
  if is_upper c then ascii_of_nat (code c + 32) else c.

Definition upper_char (c : ascii) : ascii :=
  if is_lower c then ascii_of_nat (code c - 32) else c.

(** [String.prototype.toLowerCase] on ASCII text: the other code units
    are left as they are. *)
Fixpoint toLowerCase (s : string) : string :=
  match s with
  | EmptyString => EmptyString
  | String c r => String (lower_char c) (toLowerCase r)
  end.

(** [String.prototype.startsWith]. *)
Fixpoint startsWith (s t : string) : bool :=
  match t with
  | EmptyString => true
  | String b t' =>
      match s with
      | EmptyString => false
      | String a s' => Ascii.eqb a b && startsWith s' t'
      end
  end.

(** [String.prototype.includes]. *)
Fixpoint includes (s t : string) : bool :=
  startsWith s t ||
  match s with
  | EmptyString => false
  | String _ s' => includes s' t
  end.

(** [String.prototype.endsWith]. *)
Definition endsWith (s t : string) : bool :=
  (String.length t <=? String.length s)%nat &&
  String.eqb (substring (String.length s - String.length t) (String.length t) s) t.

(** [Array.prototype.some]. *)
Definition some {A} (f : A -> bool) (l : list A) : bool := existsb f l.

(** [Array.prototype.join]. *)
Fixpoint join (sep : string) (l : list string) : string :=
  match l with
  | [] => EmptyString
  | [x] => x
  | x :: r => x ++ sep ++ join sep r
  end.

(** The quotation mark, for attribute values inside markup. *)
Definition dq : string := String (ascii_of_nat 34) EmptyString.

Definition quoted (s : string) : string := dq ++ s ++ dq.

(** The line feed of a multi-line template. *)
Definition nl : string := String (ascii_of_nat 10) EmptyString.

End Js.

(* ================================================================= *)
(** ** Numbers *)

Module Num.

(** Truthiness of a number: every number but zero (there is no NaN here). *)
Definition truthy (x : Q) : bool := negb (Qeq_bool x 0).

(** [a >= b]. *)
Definition geb (a b : Q) : bool := Qle_bool b a.

(** [a > b]. *)
Definition gtb (a b : Q) : bool := negb (Qle_bool a b).

(** The larger of two numbers, as [Math.max] of two arguments. *)
Definition max (a b : Q) : Q := if Qle_bool a b then b else a.

(** Value of a string of decimal digits, most significant first; the
    accumulator is the value read so far.  Stops at the first non-digit. *)
Fixpoint digits_value (acc : Z) (s : string) : Z * string :=
  match s with
  | String c r =>
      if Js.is_digit c
      then digits_value (10 * acc + Z.of_nat (Js.code c - 48)) r
      else (acc, s)
  | EmptyString => (acc, s)
  end.

(** [parseInt(s, 10)] on a string that starts with a digit: the exact
    integer, which is what the code computes for at most 15 digits. *)
Definition parseInt (s : string) : Q := inject_Z (fst (digits_value 0 s)).

(** [parseFloat(s)] on a string of the shape digits, optional point,
    optional digits: the exact decimal value, which is what the code
    computes for an integer of at most 15 digits. *)
Definition parseFloat (s : string) : Q :=
  let '(ip, r) := digits_value 0 s in
  match r with
  | String "." f =>
      let '(fp, r') := digits_value 0 f in
      let k := (String.length f - String.length r')%nat in
      (inject_Z ip + inject_Z fp / inject_Z (10 ^ Z.of_nat k))%Q
  | _ => inject_Z ip
  end.

End Num.

(* ================================================================= *)
(** ** Regular expressions

    A backtracking matcher in continuation-passing style for the fragment
    of ECMAScript regular expressions the sources use: literals, character
    classes, sequence, alternation, greedy repetition and capture groups,
    with the [i] flag.  Alternatives are tried left to right and a greedy
    repetition tries one more iteration before it tries to stop, as in
    ECMA-262. *)

Module Re.

Inductive item : Type :=
| One (c : ascii)            (* a single character *)
| Range (lo hi : ascii)      (* lo-hi *)
| Digit                      (* \d *)
| Space.                     (* \s *)

Inductive regex : Type :=
| Empty
| Char (c : ascii)
| Class (neg : bool) (items : list item)   (* [...] and [^...] *)
| Seq (r1 r2 : regex)
| Alt (r1 r2 : regex)
| Star (r : regex)                         (* r*, greedy *)
| Group (n : nat) (r : regex).             (* the n-th capture group *)

Definition Plus (r : regex) : regex := Seq r (Star r).   (* r+ *)
Definition Opt (r : regex) : regex := Alt r Empty.       (* r? *)

(** The literal string [s] as a pattern. *)
Fixpoint Lit (s : string) : regex :=
  match s with
  | EmptyString => Empty
  | String c r => Seq (Char c) (Lit r)
  end.

(** Canonicalize of ECMA-262 (without the [u] flag) on ASCII: under the
    [i] flag the ASCII letters are compared in upper case, the other code
    units as they are. *)
Definition canon (ic : bool) (c : ascii) : ascii :=
  if ic then Js.upper_char c else c.

Definition char_eq (ic : bool) (a b : ascii) : bool :=
  Ascii.eqb (canon ic a) (canon ic b).

Definition in_range_ic (ic : bool) (lo hi c : ascii) : bool :=
  let r := Js.in_range (Js.code lo) (Js.code hi) in
  if ic then r c || r (Js.upper_char c) || r (Js.lower_char c) else r c.

Definition item_match (ic : bool) (i : item) (c : ascii) : bool :=
  match i with
  | One a => char_eq ic a c
  | Range lo hi => in_range_ic ic lo hi c
  | Digit => Js.is_digit c
  | Space => Js.is_space c
  end.

Definition class_match (ic neg : bool) (items : list item) (c : ascii) : bool :=
  xorb neg (existsb (fun i => item_match ic i c) items).

(** Captures: group number to captured text. *)
Definition caps : Type := list (nat * string).

Fixpoint cap (n : nat) (cs : caps) : option string :=
  match cs with
  | [] => None
  | (k, v) :: r => if (k =? n)%nat then Some v else cap n r
  end.

(** The text consumed between the input [s] and its suffix [s']. *)
Definition consumed (s s' : string) : string :=
  substring 0 (String.length s - String.length s') s.

Definition cont : Type := string -> caps -> option (string * caps).

(** [m ic r s cs k]: match [r] at the head of [s] and continue with [k] on
    the rest; [None] makes the caller backtrack. *)
Fixpoint m (ic : bool) (r : regex) (s : string) (cs : caps) (k : cont)
  : option (string * caps) :=
  match r with
  | Empty => k s cs
  | Char c =>
      match s with
      | String a s' => if char_eq ic c a then k s' cs else None
      | EmptyString => None
      end
  | Class neg items =>
      match s with
      | String a s' => if class_match ic neg items a then k s' cs else None
      | EmptyString => None
      end
  | Seq r1 r2 => m ic r1 s cs (fun s' cs' => m ic r2 s' cs' k)
  | Alt r1 r2 =>
      match m ic r1 s cs k with
      | Some x => Some x
      | None => m ic r2 s cs k
      end
  | Star r1 =>
      (fix loop (n : nat) (s : string) (cs : caps) : option (string * caps) :=
         match n with
         | O => k s cs
         | S n' =>
             match m ic r1 s cs
                     (fun s' cs' =>
                        (* an iteration that consumes nothing is rejected *)
                        if (String.length s' <? String.length s)%nat
                        then loop n' s' cs' else None) with
             | Some x => Some x
             | None => k s cs
             end
         end) (String.length s) s cs
  | Group n r1 =>
      m ic r1 s cs (fun s' cs' => k s' ((n, consumed s s') :: cs'))
  end.

(** One match: the matched text, the captures and the rest of the input. *)
Record result : Type := mkResult {
  matched : string;
  groups : caps;
  rest : string
}.

(** Group [n] of a match as [String.prototype.replace] and indexing use
    it: the text, or the empty string / undefined when it did not take part. *)
Definition group (n : nat) (x : result) : option string := cap n (groups x).

(** Match anchored at the head of [s]. *)
Definition match_at (ic : bool) (r : regex) (s : string) : option result :=
  match m ic r s [] (fun s' cs' => Some (s', cs')) with
  | Some (s', cs') => Some (mkResult (consumed s s') cs' s')
  | None => None
  end.

(** [s.match(r)] for [r] without the [g] flag: the leftmost match. *)
Fixpoint str_match (ic : bool) (r : regex) (s : string) : option result :=
  match match_at ic r s with
  | Some x => Some x
  | None =>
      match s with
      | String _ s' => str_match ic r s'
      | EmptyString => None
      end
  end.

(** [s.replace(r, ...)] for [r] with the [g] flag.  [skip] counts the
    characters of the last match still to be passed over; the search
    resumes where that match ended, and after an empty match one
    character further. *)
Fixpoint replace_from (ic : bool) (r : regex) (repl : result -> string)
  (skip : nat) (s : string) {struct s} : string :=
  match skip with
  | S k =>
      match s with
      | String _ s' => replace_from ic r repl k s'
      | EmptyString => EmptyString
      end
  | O =>
      match match_at ic r s with
      | Some x =>
          repl x ++
          match s with
          | String c s' =>
              match String.length (matched x) with
              | O => String c (replace_from ic r repl 0 s')
              | S k => replace_from ic r repl k s'
              end
          | EmptyString => EmptyString
          end
      | None =>
          match s with
          | String c s' => String c (replace_from ic r repl 0 s')
          | EmptyString => EmptyString
          end
      end
  end.

Definition replace_all (ic : bool) (r : regex) (repl : result -> string)
  (s : string) : string := replace_from ic r repl 0 s.

(** The syntax characters of a pattern. *)
Definition syntax_chars : list ascii :=
  list_ascii_of_string ".*+?^${}()|[]\".

Definition is_syntax_char (c : ascii) : bool :=
  existsb (Ascii.eqb c) syntax_chars.

(** The atoms of a pattern up to the closing parenthesis or the end:
    a backslash followed by a syntax character is that character (an
    identity escape), any other character but a syntax character is
    itself.  Other syntax is outside this fragment and is refused. *)
Fixpoint parse_atoms (p : string) : option (regex * string) :=
  match p with
  | EmptyString => Some (Empty, EmptyString)
  | String c p' =>
      if Ascii.eqb c ")" then Some (Empty, p)
      else if Ascii.eqb c "\" then
        match p' with
        | String e p'' =>
            if is_syntax_char e then
              match parse_atoms p'' with
              | Some (r, q) => Some (Seq (Char e) r, q)
              | None => None
              end
            else None
        | EmptyString => None
        end
      else if is_syntax_char c then None
      else
        match parse_atoms p' with
        | Some (r, q) => Some (Seq (Char c) r, q)
        | None => None
        end
  end.

(** [new RegExp(p)] for a pattern of the shape [(atoms)]; [None] is the
    SyntaxError of the constructor. *)
Definition compile (p : string) : option regex :=
  match p with
  | String "(" p' =>
      match parse_atoms p' with
      | Some (r, String ")" EmptyString) => Some (Group 1 r)
      | _ => None
      end
  | _ => None
  end.

End Re.

(* ================================================================= *)
(** ** The platform: file system, JSON, collation *)

(** An exception value. *)
Inductive JsError : Type := Error (message : string).

(** The result of code that may throw. *)
Definition throws (A : Type) : Type := (JsError + A)%type.

(** One call of [console.error]: the message and the error passed along. *)
Definition log_entry : Type := (string * JsError)%type.

(** A computation that writes to the console. *)
Definition logged (A : Type) : Type := (A * list log_entry)%type.

(* ================================================================= *)
(** ** src/utils/cableData.ts *)

Module CableData.

Record ProtocolSpec : Type := {
  version : string;
  data_rate : string;
  data_rate_mbps : Q;
  power_delivery : option string;
  video_support : option (list string);
  features : list string;
  cable_requirements : option string;
  max_length : option string
}.

Record ConnectorSpec : Type := {
  pins : Q;
  rows : option Q;
  pitch : option Q;
  width : Q;
  height : Q;
  depth : option Q;
  reversible : bool;
  shape : string;
  unit : string
}.

Record ElectricalSpec : Type := {
  voltage_max : option Q;
  current_max : option Q;
  power_max : option Q;
  impedance : option string
}.

Record CompatibilitySpec : Type := {
  backwards : list string;
  forwards : list string;
  adapters_to : list string;
  adapters_from : list string
}.

(** The field [notes] of a source is [source_notes] here and the field
    [name] of a category is [cat_name]: the fields of the records of one
    module share their names. *)
Record Source : Type := {
  name : string;
  url : option string;
  access_date : option string;
  source_notes : option string
}.

(** [protocols] is a JavaScript object used as a map; it is kept as the
    list of its entries in property enumeration order, which is the order
    of [Object.keys] and [Object.values]. *)
Record CableSpec : Type := {
  type : string;
  full_name : string;
  standard_body : string;
  common_names : list string;
  protocols : list (string * ProtocolSpec);
  connector : ConnectorSpec;
  electrical : ElectricalSpec;
  compatibility : CompatibilitySpec;
  common_devices : list string;
  confusion_points : list string;
  buying_guide : string;
  notes : string;
  sources : option (list Source);
  last_updated : string
}.

Record CableCategory : Type := {
  cat_name : string;
  slug : string;
  description : string;
  cables : list CableSpec
}.

Definition Object_keys (c : CableSpec) : list string := map fst (protocols c).
Definition Object_values (c : CableSpec) : list ProtocolSpec := map snd (protocols c).

Record Platform : Type := {
  cwd : string;                                     (* process.cwd() *)
  path_join : list string -> string;                (* path.join *)
  readdirSync : string -> throws (list string);     (* fs.readdirSync *)
  readFileSync : string -> throws string;           (* fs.readFileSync(_, 'utf-8') *)
  JSON_parse : string -> throws CableSpec;          (* JSON.parse, see below *)
  localeCompare : string -> string -> Z             (* String.prototype.localeCompare *)
}.

(** [JSON.parse] is typed as the code declares its result: a text parses
    to a value of the [CableSpec] interface or the call throws.  A text
    that parses to another value ([null], an object without a string
    [type]) has no counterpart here. *)

(** [Array.prototype.sort] with a comparator: a stable sort.  Elements
    are inserted from the right, each before the first element it does
    not compare greater than. *)
Fixpoint sort_insert {A} (cmp : A -> A -> Z) (x : A) (l : list A) : list A :=
  match l with
  | [] => [x]
  | y :: r => if (0 <? cmp x y)%Z then y :: sort_insert cmp x r else x :: l
  end.

Definition sort {A} (cmp : A -> A -> Z) (l : list A) : list A :=
  fold_right (sort_insert cmp) [] l.

(** [files.map(f)] for an [f] that may throw: the first exception, in
    index order, ends the traversal. *)
Fixpoint map_throws {A B} (f : A -> throws B) (l : list A) : throws (list B) :=
  match l with
  | [] => inr []
  | x :: r =>
      match f x with
      | inl e => inl e
      | inr y =>
          match map_throws f r with
          | inl e => inl e
          | inr ys => inr (y :: ys)
          end
      end
  end.

Section Loader.

Variable P : Platform.

Definition DATA_DIR : string := path_join P [cwd P; "data"].

Definition loadCableData (category type : string) : logged (option CableSpec) :=
  let filePath := path_join P [DATA_DIR; category; type ++ ".json"] in
  let body : throws CableSpec :=
    match readFileSync P filePath with
    | inl e => inl e
    | inr jsonData => JSON_parse P jsonData
    end in
  match body with
  | inr c => (Some c, [])
  | inl error =>
      (None, [("Error loading cable data for " ++ category ++ "/" ++ type ++ ":", error)])
  end.

(** The callback of [files.map] in [loadCategoryData]. *)
Definition loadFile (categoryDir file : string) : throws CableSpec :=
  let filePath := path_join P [categoryDir; file] in
  match readFileSync P filePath with
  | inl e => inl e
  | inr jsonData => JSON_parse P jsonData
  end.

(** The body of the [try] block of [loadCategoryData]. *)
Definition loadCategoryData_try (category : string) : throws (list CableSpec) :=
  let categoryDir := path_join P [DATA_DIR; category] in
  match readdirSync P categoryDir with
  | inl e => inl e
  | inr entries =>
      let files := filter (fun file => Js.endsWith file ".json") entries in
      match map_throws (loadFile categoryDir) files with
      | inl e => inl e
      | inr loaded =>
          inr (sort (fun a b => localeCompare P (type a) (type b)) loaded)
      end
  end.

Definition loadCategoryData (category : string) : logged (list CableSpec) :=
  match loadCategoryData_try category with
  | inr l => (l, [])
  | inl error =>
      ([], [("Error loading category data for " ++ category ++ ":", error)])
  end.

(** The registry of [getAllCategories]: name, slug and description. *)
Definition categories : list (string * string * string) :=
  [ ("USB", "usb",
     "USB-A, USB-B, USB-C, Mini, and Micro variants. The most confusing connector family.");
    ("Video", "video",
     "HDMI, DisplayPort, DVI, VGA, and Thunderbolt video connections.");
    ("Audio", "audio",
     "3.5mm, 6.35mm, XLR, RCA, and optical audio connectors.");
    ("Power", "power",
     "Barrel jacks, IEC, NEMA, and regional power plugs.") ].

Fixpoint loadAll (cats : list (string * string * string)) : logged (list CableCategory) :=
  match cats with
  | [] => ([], [])
  | (n, s, d) :: r =>
      let '(cs, log1) := loadCategoryData s in
      let '(rest, log2) := loadAll r in
      ({| cat_name := n; slug := s; description := d; cables := cs |} :: rest,
       (log1 ++ log2)%list)
  end.

Definition getAllCategories : logged (list CableCategory) := loadAll categories.

End Loader.

(** [Math.max(...rates, 0)]. *)
Definition getMaxDataRate (cable : CableSpec) : Q :=
  let rates := map data_rate_mbps (Object_values cable) in
  fold_right Num.max 0%Q rates.

Definition getMaxPower (cable : CableSpec) : option Q :=
  power_max (electrical cable).

(** The expression [type.toLowerCase().replace(/[^a-z0-9]/g, '-')], used
    in [getCableBySlug] and for the link of a card. *)
Definition slug_re : Re.regex :=
  Re.Class true [Re.Range "a" "z"; Re.Range "0" "9"].

Definition slugify (type : string) : string :=
  Re.replace_all false slug_re (fun _ => "-") (Js.toLowerCase type).

Fixpoint find_slug (category : string) (cs : list CableSpec) (slug : string)
  : option (CableSpec * string) :=
  match cs with
  | [] => None
  | cable :: r =>
      let cableSlug := slugify (type cable) in
      if String.eqb cableSlug slug then Some (cable, category)
      else find_slug category r slug
  end.

Fixpoint find_in_categories (cats : list CableCategory) (slug' : string)
  : option (CableSpec * string) :=
  match cats with
  | [] => None
  | cat :: r =>
      match find_slug (slug cat) (cables cat) slug' with
      | Some x => Some x
      | None => find_in_categories r slug'
      end
  end.

Definition getCableBySlug (P : Platform) (slug : string)
  : logged (option (CableSpec * string)) :=
  let '(allCategories, log) := getAllCategories P in
  (find_in_categories allCategories slug, log).

(** The pattern of [wattMatch]: [( \d+ ) \s* W], flag [i]. *)
Definition watt_re : Re.regex :=
  Re.Seq (Re.Group 1 (Re.Plus (Re.Class false [Re.Digit])))
         (Re.Seq (Re.Star (Re.Class false [Re.Space])) (Re.Char "W")).

(** [m[n]] of a match array, for a group that took part in the match. *)
Definition at_group (n : nat) (x : Re.result) : string :=
  match Re.group n x with
  | Some s => s
  | None => EmptyString
  end.

(** One iteration of the loop of [getNormalizedPowerWatts]. *)
Definition scan_power (maxPower : Q) (protocol : ProtocolSpec) : Q :=
  match power_delivery protocol with
  | Some pd =>
      if (0 <? String.length pd)%nat then
        match Re.str_match true watt_re pd with
        | Some wattMatch =>
            let watts := Num.parseInt (at_group 1 wattMatch) in
            if Num.gtb watts maxPower then watts else maxPower
        | None => maxPower
        end
      else maxPower
  | None => maxPower
  end.

(** The loop of [getNormalizedPowerWatts] over the protocol variants. *)
Definition scan_protocols (cable : CableSpec) : Q :=
  fold_left scan_power (Object_values cable) 0%Q.

Definition getNormalizedPowerWatts (cable : CableSpec) : option Q :=
  let parsed :=
    let maxPower := scan_protocols cable in
    if Num.gtb maxPower 0 then Some maxPower else None in
  match power_max (electrical cable) with
  | Some p => if Num.truthy p then Some p else parsed
  | None => parsed
  end.

(** The pattern of [dataRateMatch], written with blanks between its parts:
    [( \d+ \.? \d* ) \s* ( gbps | mbps | gb\/s | mb\/s )], flag [i]. *)
Definition number_re : Re.regex :=
  Re.Seq (Re.Plus (Re.Class false [Re.Digit]))
         (Re.Seq (Re.Opt (Re.Char ".")) (Re.Star (Re.Class false [Re.Digit]))).

Definition dataRate_re : Re.regex :=
  Re.Seq (Re.Group 1 number_re)
         (Re.Seq (Re.Star (Re.Class false [Re.Space]))
                 (Re.Group 2 (Re.Alt (Re.Lit "gbps")
                             (Re.Alt (Re.Lit "mbps")
                             (Re.Alt (Re.Lit "gb/s") (Re.Lit "mb/s")))))).

(** The pattern of [powerMatch]: [( \d+ \.? \d* ) \s* w], flag [i]. *)
Definition power_re : Re.regex :=
  Re.Seq (Re.Group 1 number_re)
         (Re.Seq (Re.Star (Re.Class false [Re.Space])) (Re.Char "w")).

(** [targetRateMbps] of [searchCables]: [None] is [null]. *)
Definition targetRateMbps (query : string) : option Q :=
  match Re.str_match true dataRate_re query with
  | Some dataRateMatch =>
      let value := Num.parseFloat (at_group 1 dataRateMatch) in
      let unit := Js.toLowerCase (at_group 2 dataRateMatch) in
      Some (if Js.startsWith unit "g" then (value * 1000)%Q else value)
  | None => None
  end.

(** [targetPower] of [searchCables]. *)
Definition targetPower (query : string) : option Q :=
  match Re.str_match true power_re query with
  | Some powerMatch => Some (Num.parseFloat (at_group 1 powerMatch))
  | None => None
  end.

Definition textMatch (searchTerm : string) (cable : CableSpec) : bool :=
  let hit (s : string) := Js.includes (Js.toLowerCase s) searchTerm in
  hit (type cable) ||
  hit (full_name cable) ||
  Js.some hit (common_names cable) ||
  Js.some hit (common_devices cable) ||
  Js.some hit (Object_keys cable) ||
  Js.some (fun spec => hit (version spec) || Js.some hit (features spec))
          (Object_values cable).

(** [targetRateMbps ? ... : false]: [null] and [0] are both falsy. *)
Definition rateMatch (target : option Q) (cable : CableSpec) : bool :=
  match target with
  | Some t =>
      if Num.truthy t
      then Js.some (fun proto => Num.geb (data_rate_mbps proto) t) (Object_values cable)
      else false
  | None => false
  end.

(** [targetPower ? (power_max && power_max >= targetPower) : false], as the
    truth value [filter] takes of it. *)
Definition powerMatchResult (target : option Q) (cable : CableSpec) : bool :=
  match target with
  | Some t =>
      if Num.truthy t
      then match power_max (electrical cable) with
           | Some p => Num.truthy p && Num.geb p t
           | None => false
           end
      else false
  | None => false
  end.

(** The predicate of the [filter] of [searchCables]. *)
Definition matches (query : string) (cable : CableSpec) : bool :=
  let searchTerm := Js.toLowerCase query in
  textMatch searchTerm cable ||
  rateMatch (targetRateMbps query) cable ||
  powerMatchResult (targetPower query) cable.

(** [allCategories.flatMap(cat => cat.cables)]. *)
Definition allCables (P : Platform) : list CableSpec :=
  flat_map cables (fst (getAllCategories P)).

Definition searchCables (P : Platform) (query : string) : logged (list CableSpec) :=
  let '(allCategories, log) := getAllCategories P in
  let allCables := flat_map cables allCategories in
  (filter (matches query) allCables, log).

(** A [Set<string>] as the list of its members in insertion order. *)
Definition set_has (x : string) (s : list string) : bool :=
  existsb (String.eqb x) s.

(** [Set.prototype.add]: a member already present keeps its place. *)
Definition set_add (s : list string) (x : string) : list string :=
  if set_has x s then s else (s ++ [x])%list.

(** The test of a feature in [getVideoCapabilities]. *)
Definition video_feature (feature : string) : bool :=
  Js.includes (Js.toLowerCase feature) "displayport" ||
  Js.includes (Js.toLowerCase feature) "hdmi" ||
  Js.includes (Js.toLowerCase feature) "4k" ||
  Js.includes (Js.toLowerCase feature) "8k".

(** The body of the loop of [getVideoCapabilities] for one variant. *)
Definition add_capabilities (capabilities : list string) (protocol : ProtocolSpec)
  : list string :=
  let capabilities :=
    match video_support protocol with
    | Some videos => fold_left set_add videos capabilities
    | None => capabilities
    end in
  fold_left (fun caps feature =>
               if video_feature feature then set_add caps feature else caps)
            (features protocol) capabilities.

(** [Array.from(capabilities)] after the loop. *)
Definition getVideoCapabilities (cable : CableSpec) : list string :=
  fold_left add_capabilities (Object_values cable) [].

Definition hasVideoSupport (cable : CableSpec) : bool :=
  (0 <? List.length (getVideoCapabilities cable))%nat.

End CableData.

(* ================================================================= *)
(** ** src/scripts/cableCard.ts *)

Module CableCard.

Record ClientCable : Type := {
  type : string;
  full_name : string;
  categorySlug : string;
  categoryName : string;
  max_rate_mbps : Q;
  max_power : option Q;
  pins : Q;
  width : Q;
  height : Q;
  reversible : bool;
  common_devices : list string;
  confusion_points : list string;
  notes : string
}.

Record CreateCardOptions : Type := {
  highlightTerm : option string
}.

(** [escapeHtml] writes the text into a detached element and reads its
    markup back; the serialization of a text node replaces the ampersand,
    the no-break space (bytes 194 160) and the two angle brackets. *)
Fixpoint escapeHtml (text : string) : string :=
  match text with
  | EmptyString => EmptyString
  | String c r =>
      if Ascii.eqb c "&" then "&amp;" ++ escapeHtml r
      else if Ascii.eqb c "<" then "&lt;" ++ escapeHtml r
      else if Ascii.eqb c ">" then "&gt;" ++ escapeHtml r
      else
        match r with
        | String d r' =>
            if Ascii.eqb c (ascii_of_nat 194) && Ascii.eqb d (ascii_of_nat 160)
            then "&nbsp;" ++ escapeHtml r'
            else String c (escapeHtml r)
        | EmptyString => String c EmptyString
        end
  end.

(** The character class of [term.replace] in [highlightText]: the syntax
    characters of a pattern. *)
Definition meta_re : Re.regex :=
  Re.Class false (map Re.One Re.syntax_chars).

(** [term.replace(meta, '\\$&')]: a backslash before every syntax character. *)
Definition escapeRegExp (term : string) : string :=
  Re.replace_all false meta_re (fun x => "\" ++ Re.matched x) term.

Definition mark_open : string :=
  "<mark class=" ++ Js.quoted "bg-warning/30 text-foreground rounded px-0.5" ++
  ">".

Definition mark_close : string := "</mark>".

(** The replacement [<mark ...>$1</mark>]. *)
Definition mark (x : Re.result) : string :=
  mark_open ++ CableData.at_group 1 x ++ mark_close.

Definition highlightText (text : string) (term : option string) : throws string :=
  match term with
  | Some t =>
      if (String.length t =? 0)%nat || (String.length text =? 0)%nat
      then inr (escapeHtml text)
      else
        let escaped := escapeHtml text in
        match Re.compile ("(" ++ escapeRegExp t ++ ")") with
        | Some regex => inr (Re.replace_all true regex mark escaped)
        | None => inl (Error "Invalid regular expression")
        end
  | None => inr (escapeHtml text)
  end.

Definition isLegacy (cable : ClientCable) : bool :=
  let notesLower := Js.toLowerCase (notes cable) in
  Js.includes notesLower "obsolete" ||
  Js.includes notesLower "legacy" ||
  Js.includes notesLower "phased out" ||
  Js.some (fun p =>
             Js.includes (Js.toLowerCase p) "obsolete" ||
             Js.includes (Js.toLowerCase p) "deprecated")
          (confusion_points cable).

Section Render.

(** [Number::toString], behind every number interpolated in a template. *)
Variable toString : Q -> string.

Definition formatDataRate (mbps : Q) : string :=
  if Num.geb mbps 1000
  then toString (mbps / 1000)%Q ++ " Gbps"
  else toString mbps ++ " Mbps".

Definition categoryBadge (cable : ClientCable) : string :=
  "<span class=" ++ Js.quoted "badge badge-muted" ++ ">" ++
  escapeHtml (categoryName cable) ++ "</span>".

Definition reversibleBadge : string :=
  "<span class=" ++ Js.quoted "badge badge-reversible" ++
  ">Reversible</span>".

Definition legacyBadge : string :=
  "<span class=" ++ Js.quoted "badge badge-muted" ++ ">Legacy</span>".

(** The array [badges] after its three conditional pushes. *)
Definition badges (cable : ClientCable) : list string :=
  ([categoryBadge cable]
   ++ (if reversible cable then [reversibleBadge] else [])
   ++ (if isLegacy cable then [legacyBadge] else []))%list.

Definition tag (device : string) : string :=
  "<span class=" ++ Js.quoted "tag text-xs" ++ ">" ++ escapeHtml device ++
  "</span>".

Definition commonUsesHtml (cable : ClientCable) : string :=
  if (0 <? List.length (common_devices cable))%nat then
    let tags := Js.join EmptyString (map tag (firstn 3 (common_devices cable))) in
    let overflow :=
      if (3 <? List.length (common_devices cable))%nat
      then "<span class=" ++ Js.quoted "tag-muted text-xs" ++ ">+" ++
           toString (inject_Z (Z.of_nat (List.length (common_devices cable)) - 3)) ++
           " more</span>"
      else EmptyString in
    ( "
      <div class=" ++ Js.quoted "mb-4" ++
      ">
        <p class=" ++ Js.quoted "text-xs mb-2" ++
      ">Common Uses</p>
        <div class=" ++ Js.quoted "flex flex-wrap gap-1" ++
      ">
          " ++ tags ++
      "
          " ++ overflow ++
      "
        </div>
      </div>
    " )
  else EmptyString.

Definition confusionWarning (cable : ClientCable) : string :=
  match confusion_points cable with
  | p :: _ =>
      "<div class=" ++ Js.quoted "mb-4 alert-warning" ++
      ">
           <p class=" ++ Js.quoted "text-warning-foreground text-sm" ++
      ">" ++ escapeHtml p ++
      "</p>
         </div>"
  | [] => EmptyString
  end.

(** [cable.max_power ? ... : '']: [null] and [0] are both falsy. *)
Definition powerHtml (cable : ClientCable) : string :=
  match max_power cable with
  | Some p =>
      if Num.truthy p
      then "<div>
         <p class=" ++ Js.quoted "text-xs mb-1" ++
           ">Max Power</p>
         <p class=" ++ Js.quoted "text-foreground font-medium" ++ ">" ++
           toString p ++
           "W</p>
       </div>"
      else EmptyString
  | None => EmptyString
  end.

(** The template of the card, around the two highlighted fields. *)
Definition card (cable : ClientCable) (hType hName : string) : string :=
  "
    <div class=" ++ Js.quoted "group relative card-interactive" ++
  ">
      <a href=" ++ Js.dq ++ "/" ++ categorySlug cable ++ "/" ++
  CableData.slugify (type cable) ++ Js.dq ++ " class=" ++
  Js.quoted "block p-6" ++ " aria-label=" ++ Js.dq ++
  "View detailed specifications for " ++ escapeHtml (type cable) ++ Js.dq ++
  ">
        <!-- Badges -->
        <div class=" ++ Js.quoted "absolute top-4 right-4 flex gap-2" ++
  ">
          " ++ Js.join (Js.nl ++ "          ") (badges cable) ++
  "
        </div>

        <!-- Header -->
        <div class=" ++ Js.quoted "mt-6 mb-4" ++
  ">
          <h3 class=" ++
  Js.quoted "text-xl font-semibold text-foreground mb-1" ++ ">" ++ hType ++
  "</h3>
          <p class=" ++ Js.quoted "text-sm" ++ ">" ++ hName ++
  "</p>
        </div>

        <!-- Specs Grid -->
        <div class=" ++ Js.quoted "grid grid-cols-2 gap-4 mb-4" ++
  ">
          <div>
            <p class=" ++ Js.quoted "text-xs mb-1" ++
  ">Max Speed</p>
            <p class=" ++ Js.quoted "text-foreground font-medium" ++ ">" ++
  formatDataRate (max_rate_mbps cable) ++
  "</p>
          </div>
          " ++ powerHtml cable ++
  "
        </div>

        <!-- Connector Info -->
        <div class=" ++ Js.quoted "mb-4" ++
  ">
          <p class=" ++ Js.quoted "text-xs mb-1" ++
  ">Connector</p>
          <p class=" ++ Js.quoted "text-foreground text-sm" ++
  ">
            " ++ toString (pins cable) ++ " pins, " ++
  toString (width cable) ++ "×" ++ toString (height cable) ++
  "mm
          </p>
        </div>

        <!-- Common Uses -->
        " ++ commonUsesHtml cable ++
  "

        <!-- Warning -->
        " ++ confusionWarning cable ++
  "

        <!-- Footer -->
        <div class=" ++ Js.quoted "flex items-center gap-1 text-sm" ++
  ">
          <span class=" ++ Js.quoted "group-hover:underline" ++
  ">Learn more</span>
          <span class=" ++
  Js.quoted "transition-transform group-hover:translate-x-0.5" ++
  ">→</span>
        </div>
      </a>
    </div>
  ".

Definition createCableCard (cable : ClientCable) (options : option CreateCardOptions)
  : throws string :=
  let term :=
    match options with
    | Some o => highlightTerm o
    | None => None
    end in
  match highlightText (type cable) term with
  | inl e => inl e
  | inr hType =>
      match highlightText (full_name cable) term with
      | inl e => inl e
      | inr hName => inr (card cable hType hName)
      end
  end.

End Render.

End CableCard.

(* ================================================================= *)
(** ** Sample data for closed statements *)

Module Sample.

Import CableData.

Fixpoint lookup {A} (k : string) (t : list (string * A)) : option A :=
  match t with
  | [] => None
  | (k', v) :: r => if String.eqb k k' then Some v else lookup k r
  end.

Definition or_throw {A} (msg : string) (o : option A) : throws A :=
  match o with
  | Some v => inr v
  | None => inl (Error msg)
  end.

(** A platform given by three tables: directory listings, file contents
    and the records the contents parse to.  Paths are joined with a
    slash and strings are collated by code unit. *)
Definition platform (dirs : list (string * list string))
  (files : list (string * string)) (docs : list (string * CableSpec)) : Platform :=
  {| cwd := "/app";
     path_join := Js.join "/";
     readdirSync := fun p => or_throw "ENOENT" (lookup p dirs);
     readFileSync := fun p => or_throw "ENOENT" (lookup p files);
     JSON_parse := fun t => or_throw "SyntaxError" (lookup t docs);
     localeCompare := fun a b =>
       match String.compare a b with
       | Lt => (-1)%Z
       | Eq => 0%Z
       | Gt => 1%Z
       end |}.

Definition protocol (v : string) (mbps : Q) (pd : option string)
  (fs : list string) : ProtocolSpec :=
  {| version := v; data_rate := EmptyString; data_rate_mbps := mbps;
     power_delivery := pd; video_support := None; features := fs;
     cable_requirements := None; max_length := None |}.

Definition cable (t : string) (ps : list (string * ProtocolSpec))
  (pw : option Q) : CableSpec :=
  {| type := t; full_name := t; standard_body := EmptyString;
     common_names := [];
     protocols := ps;
     connector := {| pins := 4; rows := None; pitch := None; width := 12;
                     height := 4.5; depth := None; reversible := false;
                     shape := "rectangular"; unit := "mm" |};
     electrical := {| voltage_max := None; current_max := None;
                      power_max := pw; impedance := None |};
     compatibility := {| backwards := []; forwards := []; adapters_to := [];
                         adapters_from := [] |};
     common_devices := []; confusion_points := [];
     buying_guide := EmptyString; notes := EmptyString;
     sources := None; last_updated := "2025-01-01" |}.

Definition card (t : string) (pw : option Q) (cps : list string) (ns : string)
  : CableCard.ClientCable :=
  {| CableCard.type := t; CableCard.full_name := t;
     CableCard.categorySlug := "usb"; CableCard.categoryName := "USB";
     CableCard.max_rate_mbps := 480; CableCard.max_power := pw;
     CableCard.pins := 4; CableCard.width := 12; CableCard.height := 4.5;
     CableCard.reversible := false; CableCard.common_devices := [];
     CableCard.confusion_points := cps; CableCard.notes := ns |}.

End Sample.

(* ================================================================= *)
(** ** Properties *)

(** *** Numbers *)

Lemma max_ge_r (a b : Q) : (b <= Num.max a b)%Q.
Proof.
  unfold Num.max. destruct (Qle_bool a b) eqn:E.
  - apply Qle_refl.
  - apply Qlt_le_weak, Qnot_le_lt. intro H.
    apply Qle_bool_iff in H. congruence.
Qed.

Lemma max_ge_l (a b : Q) : (a <= Num.max a b)%Q.
Proof.
  unfold Num.max. destruct (Qle_bool a b) eqn:E.
  - now apply Qle_bool_iff.
  - apply Qle_refl.
Qed.

Lemma max_cases (a b : Q) : Num.max a b = a \/ Num.max a b = b.
Proof. unfold Num.max. destruct (Qle_bool a b); auto. Qed.

Lemma gtb_lt (a b : Q) : Num.gtb a b = true <-> (b < a)%Q.
Proof.
  unfold Num.gtb. rewrite negb_true_iff. split; intro H.
  - apply Qnot_le_lt. intro L. apply Qle_bool_iff in L. congruence.
  - destruct (Qle_bool a b) eqn:E; [|reflexivity].
    apply Qle_bool_iff in E. exfalso. exact (Qlt_not_le _ _ H E).
Qed.

Lemma gtb_false_le (a b : Q) : Num.gtb a b = false <-> (a <= b)%Q.
Proof.
  unfold Num.gtb. rewrite negb_false_iff. apply Qle_bool_iff.
Qed.

Lemma truthy_iff (x : Q) : Num.truthy x = true <-> ~ (x == 0)%Q.
Proof.
  unfold Num.truthy. rewrite negb_true_iff. split; intro H.
  - intro E. apply Qeq_bool_iff in E. congruence.
  - destruct (Qeq_bool x 0) eqn:E; [|reflexivity].
    apply Qeq_bool_iff in E. contradiction.
Qed.

Lemma truthy_false_iff (x : Q) : Num.truthy x = false <-> (x == 0)%Q.
Proof.
  unfold Num.truthy. rewrite negb_false_iff. apply Qeq_bool_iff.
Qed.

(** *** The floor of [getMaxDataRate] *)

Section MaxRate.

(** [Math.max(...l, 0)]. *)
Definition floor_max (l : list Q) : Q := fold_right Num.max 0%Q l.

Lemma floor_max_nonneg (l : list Q) : (0 <= floor_max l)%Q.
Proof.
  induction l as [|a l IH].
  - apply Qle_refl.
  - change (floor_max (a :: l)) with (Num.max a (floor_max l)).
    eapply Qle_trans; [exact IH | apply max_ge_r].
Qed.

Lemma floor_max_upper (l : list Q) (x : Q) : In x l -> (x <= floor_max l)%Q.
Proof.
  induction l as [|a l IH]; [simpl; tauto|].
  change (floor_max (a :: l)) with (Num.max a (floor_max l)).
  intros [->|H].
  - apply max_ge_l.
  - eapply Qle_trans; [apply IH, H | apply max_ge_r].
Qed.

Lemma floor_max_attained (l : list Q) : floor_max l = 0%Q \/ In (floor_max l) l.
Proof.
  induction l as [|a l IH]; [now left|].
  change (floor_max (a :: l)) with (Num.max a (floor_max l)).
  destruct (max_cases a (floor_max l)) as [E|E]; rewrite E.
  - right. now left.
  - destruct IH as [IH|IH]; [now left | right; now right].
Qed.

Lemma floor_max_zero (l : list Q) :
  (floor_max l == 0)%Q <-> (forall x, In x l -> (x <= 0)%Q).
Proof.
  split.
  - intros E x H. rewrite <- E. now apply floor_max_upper.
  - intro H. apply Qle_antisym; [|apply floor_max_nonneg].
    destruct (floor_max_attained l) as [E|E].
    + rewrite E. apply Qle_refl.
    + now apply H.
Qed.

End MaxRate.

(** *** Strings *)

Lemma str_app_assoc (a b c : string) : (a ++ b) ++ c = a ++ (b ++ c).
Proof. induction a; simpl; congruence. Qed.

Lemma str_app_length (a b : string) :
  String.length (a ++ b) = (String.length a + String.length b)%nat.
Proof. induction a; simpl; congruence. Qed.

Lemma substring_all_prefix (pre s : string) :
  substring 0 (String.length pre) (pre ++ s) = pre.
Proof.
  induction pre as [|c pre IH]; simpl.
  - now destruct s.
  - now rewrite IH.
Qed.

(** What a match consumed is the prefix that was cut off. *)
Lemma consumed_app (pre s : string) : Re.consumed (pre ++ s) s = pre.
Proof.
  unfold Re.consumed. rewrite str_app_length.
  replace (String.length pre + String.length s - String.length s)%nat
    with (String.length pre) by lia.
  apply substring_all_prefix.
Qed.

Lemma consumed_one (c : ascii) (s : string) :
  Re.consumed (String c s) s = String c EmptyString.
Proof. exact (consumed_app (String c EmptyString) s). Qed.

Lemma toLowerCase_app (a b : string) :
  Js.toLowerCase (a ++ b) = Js.toLowerCase a ++ Js.toLowerCase b.
Proof. induction a; simpl; congruence. Qed.

(** A split of the lower-cased text is the image of a split of the text. *)
Lemma toLowerCase_split (s a b : string) :
  Js.toLowerCase s = a ++ b ->
  exists a' b', s = a' ++ b' /\ Js.toLowerCase a' = a /\ Js.toLowerCase b' = b.
Proof.
  revert s. induction a as [|x a IH]; intros s H.
  - exists EmptyString, s. auto.
  - destruct s as [|c s]; simpl in H; [discriminate|].
    injection H as Hx Hs. destruct (IH _ Hs) as (a' & b' & -> & Ha & Hb).
    exists (String c a'), b'. simpl. now rewrite Ha, Hx.
Qed.

Lemma startsWith_iff (s t : string) :
  Js.startsWith s t = true <-> exists r, s = t ++ r.
Proof.
  revert s. induction t as [|b t IH]; intros s; simpl.
  - split; [intros _; now exists s | intros _; now destruct s].
  - destruct s as [|a s]; simpl.
    + split; [discriminate | intros [r H]; discriminate].
    + rewrite andb_true_iff, Ascii.eqb_eq, IH. split.
      * intros [-> [r ->]]. now exists r.
      * intros [r H]. injection H as -> ->. split; [reflexivity | now exists r].
Qed.

(** [includes] finds exactly the substrings. *)
Lemma includes_iff (s t : string) :
  Js.includes s t = true <-> exists pre post, s = pre ++ t ++ post.
Proof.
  induction s as [|a s IH].
  - cbn [Js.includes]. rewrite orb_false_r, startsWith_iff. split.
    + intros [r H]. now exists EmptyString, r.
    + intros (pre & post & H). destruct pre; [now exists post | discriminate].
  - cbn [Js.includes]. rewrite orb_true_iff, IH, startsWith_iff. split.
    + intros [[r H] | (pre & post & ->)].
      * now exists EmptyString, r.
      * now exists (String a pre), post.
    + intros (pre & post & H). destruct pre as [|c pre].
      * left. now exists post.
      * right. injection H as _ ->. now exists pre, post.
Qed.

Lemma includes_empty (s : string) : Js.includes s EmptyString = true.
Proof. destruct s; reflexivity. Qed.

(** The text [s] contains [t] up to the case of its letters; [t] is in
    lower case. *)
Definition contains_ci (s t : string) : Prop :=
  exists pre mid post, s = pre ++ mid ++ post /\ Js.toLowerCase mid = t.

Lemma includes_lower_iff (s t : string) :
  Js.includes (Js.toLowerCase s) t = true <-> contains_ci s t.
Proof.
  rewrite includes_iff. split.
  - intros (pre & post & H).
    destruct (toLowerCase_split _ _ _ H) as (pre' & r & -> & _ & Hr).
    destruct (toLowerCase_split _ _ _ Hr) as (mid & post' & -> & Hm & _).
    now exists pre', mid, post'.
  - intros (pre & mid & post & -> & <-).
    exists (Js.toLowerCase pre), (Js.toLowerCase post).
    now rewrite !toLowerCase_app.
Qed.

(** *** C4: the maximum data rate *)

Section MaxDataRate.

Import CableData.

(** C4 (as amended).  [getMaxDataRate] is never negative, is at least every
    variant's Mbps value, and is either the floor 0 or the Mbps value of one
    of the variants: it is the larger of 0 and the maximum over the
    variants.  It is 0 for a record without variants, and it is 0 exactly
    when no variant has a positive Mbps value. *)
Theorem getMaxDataRate_floor (c : CableSpec) :
  (0 <= getMaxDataRate c)%Q /\
  (forall p, In p (Object_values c) -> (data_rate_mbps p <= getMaxDataRate c)%Q) /\
  (getMaxDataRate c = 0%Q \/
   exists p, In p (Object_values c) /\ getMaxDataRate c = data_rate_mbps p) /\
  (protocols c = [] -> getMaxDataRate c = 0%Q) /\
  ((getMaxDataRate c == 0)%Q <->
   forall p, In p (Object_values c) -> (data_rate_mbps p <= 0)%Q).
Proof.
  change (getMaxDataRate c) with (floor_max (map data_rate_mbps (Object_values c))).
  repeat split.
  - apply floor_max_nonneg.
  - intros p H. apply floor_max_upper. now apply in_map.
  - destruct (floor_max_attained (map data_rate_mbps (Object_values c))) as [E|E].
    + now left.
    + right. apply in_map_iff in E. destruct E as (p & E & H). now exists p.
  - intro E. unfold Object_values. now rewrite E.
  - intros E p H. apply (proj1 (floor_max_zero _) E). now apply in_map.
  - intro H. apply floor_max_zero. intros x Hx.
    apply in_map_iff in Hx. destruct Hx as (p & <- & Hp). now apply H.
Qed.

(** A record without variants has rate 0. *)
Lemma getMaxDataRate_floor_witness :
  getMaxDataRate (Sample.cable "3.5mm" [] None) = 0%Q.
Proof.
  apply (proj1 (proj2 (proj2 (proj2
           (getMaxDataRate_floor (Sample.cable "3.5mm" [] None)))))).
  reflexivity.
Defined.

(** An analog connector whose only variant carries no data: the rate is 0
    although the record has a protocol variant. *)
Definition analog_cable : CableSpec :=
  Sample.cable "3.5mm" [("Analog", Sample.protocol "TRS" 0 None [])] None.

(** C4 (as stated) fails: rate 0 does not mean that there is no variant. *)
Lemma getMaxDataRate_zero_with_variant :
  ~ ((getMaxDataRate analog_cable == 0)%Q <-> protocols analog_cable = []).
Proof.
  intros [H _]. assert (E : (getMaxDataRate analog_cable == 0)%Q) by reflexivity.
  specialize (H E). discriminate H.
Qed.

End MaxDataRate.

(** *** Replacing the matches of a one-character class *)

Lemma match_at_class (ic neg : bool) (items : list Re.item) (c : ascii) (s : string) :
  Re.match_at ic (Re.Class neg items) (String c s) =
  if Re.class_match ic neg items c
  then Some (Re.mkResult (String c EmptyString) [] s)
  else None.
Proof.
  unfold Re.match_at. cbn [Re.m].
  destruct (Re.class_match ic neg items c); [|reflexivity].
  now rewrite consumed_one.
Qed.

Lemma replace_class_cons (ic neg : bool) (items : list Re.item)
  (repl : Re.result -> string) (c : ascii) (s : string) :
  Re.replace_all ic (Re.Class neg items) repl (String c s) =
  if Re.class_match ic neg items c
  then repl (Re.mkResult (String c EmptyString) [] s)
       ++ Re.replace_all ic (Re.Class neg items) repl s
  else String c (Re.replace_all ic (Re.Class neg items) repl s).
Proof.
  unfold Re.replace_all. cbn [Re.replace_from].
  rewrite match_at_class.
  now destruct (Re.class_match ic neg items c).
Qed.

(** *** C3: the slug of a type *)

Section Slug.

Import CableData.

(** A character of [a-z0-9]. *)
Definition is_slug_alnum (c : ascii) : bool := Js.is_lower c || Js.is_digit c.

(** What the slug keeps of one character: its lower case, or a hyphen. *)
Definition slug_char (c : ascii) : ascii :=
  let l := Js.lower_char c in
  if is_slug_alnum l then l else "-"%char.

Fixpoint map_chars (f : ascii -> ascii) (s : string) : string :=
  match s with
  | EmptyString => EmptyString
  | String c r => String (f c) (map_chars f r)
  end.

Fixpoint all_chars (f : ascii -> bool) (s : string) : bool :=
  match s with
  | EmptyString => true
  | String c r => f c && all_chars f r
  end.

(** A text of ASCII characters only: every code unit is below 128.  On
    such a text the case mapping, the white space and the [i] flag of the
    model are those of the code. *)
Definition is_ascii (s : string) : bool :=
  all_chars (fun c => (Js.code c <? 128)%nat) s.

(** A character of a slug: lower-case letter, digit or hyphen. *)
Definition is_slug_char (c : ascii) : bool :=
  is_slug_alnum c || Ascii.eqb c "-".

Lemma slug_class (c : ascii) :
  Re.class_match false true [Re.Range "a" "z"; Re.Range "0" "9"] c
  = negb (is_slug_alnum c).
Proof.
  unfold Re.class_match, is_slug_alnum. cbn [existsb Re.item_match].
  now rewrite orb_false_r.
Qed.

Lemma slugify_map (s : string) : slugify s = map_chars slug_char s.
Proof.
  unfold slugify, slug_re. induction s as [|c s IH]; [reflexivity|].
  cbn [Js.toLowerCase map_chars]. rewrite replace_class_cons, slug_class, IH.
  unfold slug_char. now destruct (is_slug_alnum (Js.lower_char c)).
Qed.

Lemma slug_char_fixes (c : ascii) : is_slug_char c = true -> slug_char c = c.
Proof.
  destruct c as [[] [] [] [] [] [] [] []]; intro H;
    solve [reflexivity | discriminate H].
Qed.

Lemma slug_char_is_slug_char (c : ascii) : is_slug_char (slug_char c) = true.
Proof. destruct c as [[] [] [] [] [] [] [] []]; reflexivity. Qed.

Lemma map_slug_char_fixes (s : string) :
  all_chars is_slug_char s = true -> map_chars slug_char s = s.
Proof.
  induction s as [|c s IH]; [reflexivity|]. cbn [all_chars map_chars].
  rewrite andb_true_iff. intros [Hc Hs]. now rewrite slug_char_fixes, IH.
Qed.

Lemma map_slug_char_all (s : string) :
  all_chars is_slug_char (map_chars slug_char s) = true.
Proof.
  induction s as [|c s IH]; [reflexivity|]. cbn [all_chars map_chars].
  now rewrite slug_char_is_slug_char, IH.
Qed.

(** C3 (as amended).  The slug of an ASCII type is the lower-cased type
    with EVERY character outside [a-z0-9] replaced by one hyphen: a run
    of n such characters gives n hyphens, it is not collapsed.  So the
    slug of "USB-C" is "usb-c" and the slug of "HDMI 2.1!!" is
    "hdmi-2-1--"; a string of lower-case letters, digits and hyphens is
    its own slug, and taking the slug twice is the same as taking it
    once. *)
Theorem slugify_spec :
  (forall s, is_ascii s = true -> slugify s = map_chars slug_char s) /\
  slugify "USB-C" = "usb-c" /\
  slugify "HDMI 2.1!!" = "hdmi-2-1--" /\
  (forall s, all_chars is_slug_char s = true -> slugify s = s) /\
  (forall s, slugify (slugify s) = slugify s).
Proof.
  split; [intros s _; apply slugify_map|].
  split; [reflexivity|]. split; [reflexivity|]. split.
  - intros s H. rewrite slugify_map. now apply map_slug_char_fixes.
  - intro s. rewrite !slugify_map.
    apply map_slug_char_fixes, map_slug_char_all.
Qed.

Lemma slugify_spec_witness :
  slugify "Mini DisplayPort" = map_chars slug_char "Mini DisplayPort" /\
  slugify "hdmi-2-1" = "hdmi-2-1".
Proof.
  split.
  - apply (proj1 slugify_spec "Mini DisplayPort"). reflexivity.
  - apply (proj1 (proj2 (proj2 (proj2 slugify_spec))) "hdmi-2-1").
    reflexivity.
Defined.

(** C3 (as stated) fails: the two exclamation marks give two hyphens. *)
Lemma slugify_does_not_collapse : slugify "HDMI 2.1!!" <> "hdmi-2-1".
Proof. discriminate. Qed.

End Slug.

(** *** C9: the empty query *)

Section EmptyQuery.

Import CableData.

Lemma filter_all {A} (f : A -> bool) (l : list A) :
  (forall x, f x = true) -> filter f l = l.
Proof.
  intro H. induction l as [|x l IH]; simpl; [reflexivity|].
  now rewrite H, IH.
Qed.

Lemma matches_empty (c : CableSpec) : matches EmptyString c = true.
Proof.
  unfold matches, textMatch. cbn [Js.toLowerCase].
  now rewrite includes_empty.
Qed.

(** C9.  The empty query is a substring of every type, so every record
    passes the filter: the result of [searchCables] is the whole catalog,
    in catalog order. *)
Theorem searchCables_empty_query (P : Platform) :
  (forall c : CableSpec,
     Js.includes (Js.toLowerCase (type c)) (Js.toLowerCase EmptyString) = true) /\
  fst (searchCables P EmptyString) = allCables P.
Proof.
  split.
  - intro c. apply includes_empty.
  - unfold searchCables, allCables.
    destruct (getAllCategories P) as [cats log]. cbn [fst].
    apply filter_all, matches_empty.
Qed.

End EmptyQuery.

(** *** C10: a declared power of zero on a card *)

Section ZeroPower.

Import CableCard.

Variable toString : Q -> string.

(** The record [c] with its [max_power] replaced. *)
Definition with_max_power (c : ClientCable) (p : option Q) : ClientCable :=
  {| type := type c; full_name := full_name c;
     categorySlug := categorySlug c; categoryName := categoryName c;
     max_rate_mbps := max_rate_mbps c; max_power := p;
     pins := pins c; width := width c; height := height c;
     reversible := reversible c; common_devices := common_devices c;
     confusion_points := confusion_points c; notes := notes c |}.

(** C10.  The power section of a card is empty for a [max_power] of 0 as
    it is for [null], and the whole fragment is the same in both cases. *)
Theorem zero_power_renders_as_absent (c : ClientCable) (options : option CreateCardOptions) :
  powerHtml toString (with_max_power c (Some 0%Q)) = EmptyString /\
  powerHtml toString (with_max_power c None) = EmptyString /\
  createCableCard toString (with_max_power c (Some 0%Q)) options
  = createCableCard toString (with_max_power c None) options.
Proof. repeat split. Qed.

End ZeroPower.

(** *** C7: the legacy badge *)

Section Legacy.

Import CableCard.

Lemma some_exists {A} (f : A -> bool) (l : list A) :
  Js.some f l = true <-> exists x, In x l /\ f x = true.
Proof. apply existsb_exists. Qed.

(** C7 (as amended).  A record is legacy exactly when its notes contain
    "obsolete", "legacy" or "phased out", or one of its confusion points
    contains "obsolete" or "deprecated", in any case of the letters.  The
    notes are not searched for "deprecated" and the confusion points are
    not searched for "legacy" or "phased out". *)
Theorem isLegacy_iff (c : ClientCable) :
  isLegacy c = true <->
  (contains_ci (notes c) "obsolete" \/
   contains_ci (notes c) "legacy" \/
   contains_ci (notes c) "phased out") \/
  (exists p, In p (confusion_points c) /\
             (contains_ci p "obsolete" \/ contains_ci p "deprecated")).
Proof.
  unfold isLegacy. cbv zeta.
  rewrite !orb_true_iff, some_exists, !includes_lower_iff.
  split.
  - intros [[[H|H]|H]|(p & Hp & H)]; [tauto | tauto | tauto |].
    right. exists p. split; [exact Hp|].
    now rewrite orb_true_iff, !includes_lower_iff in H.
  - intros [[H|[H|H]]|(p & Hp & H)]; [tauto | tauto | tauto |].
    right. exists p. split; [exact Hp|].
    now rewrite orb_true_iff, !includes_lower_iff.
Qed.

(** A record whose only hint is the word "legacy" in a confusion point. *)
Definition legacy_in_confusion : ClientCable :=
  Sample.card "PS/2" None ["Legacy port, often confused with S-Video"] EmptyString.

(** A record whose notes say "deprecated". *)
Definition deprecated_in_notes : ClientCable :=
  Sample.card "FireWire" None [] "Deprecated by its vendor".

(** C7 (as stated) fails in both directions of the pairing: "legacy" in a
    confusion point and "deprecated" in the notes do not make a record
    legacy. *)
Lemma isLegacy_misses :
  (isLegacy legacy_in_confusion = false /\
   exists p, In p (confusion_points legacy_in_confusion) /\ contains_ci p "legacy") /\
  (isLegacy deprecated_in_notes = false /\
   contains_ci (notes deprecated_in_notes) "deprecated").
Proof.
  split; split; try reflexivity.
  - eexists. split; [now left|]. apply includes_lower_iff. reflexivity.
  - apply includes_lower_iff. reflexivity.
Qed.

End Legacy.

(** *** C2: the normalized power *)

Section NormalizedPower.

Import CableData.

(** The wattage a variant's power-delivery text states: the number read
    from the first run of digits that is followed, after optional white
    space, by the letter W in either case. *)
Definition first_wattage (v : ProtocolSpec) : option Q :=
  match power_delivery v with
  | Some pd =>
      match Re.str_match true watt_re pd with
      | Some x => Some (Num.parseInt (at_group 1 x))
      | None => None
      end
  | None => None
  end.

Lemma scan_power_eq (acc : Q) (v : ProtocolSpec) :
  scan_power acc v =
  match first_wattage v with
  | Some w => if Num.gtb w acc then w else acc
  | None => acc
  end.
Proof.
  unfold scan_power, first_wattage.
  destruct (power_delivery v) as [[|a pd]|]; [reflexivity | | reflexivity].
  change (0 <? String.length (String a pd))%nat with true. cbv iota.
  now destruct (Re.str_match true watt_re (String a pd)).
Qed.

Lemma scan_fold (l : list ProtocolSpec) (acc : Q) :
  let r := fold_left scan_power l acc in
  (acc <= r)%Q /\
  (forall v w, In v l -> first_wattage v = Some w -> (w <= r)%Q) /\
  (r = acc \/ exists v, In v l /\ first_wattage v = Some r).
Proof.
  revert acc. induction l as [|v l IH]; intro acc; cbn zeta.
  - cbn [fold_left]. split; [apply Qle_refl|]. split; [intros ? ? []|now left].
  - cbn [fold_left]. specialize (IH (scan_power acc v)). cbn zeta in IH.
    destruct IH as (Hacc & Hup & Hatt).
    assert (Hstep : (acc <= scan_power acc v)%Q /\
                    (forall w, first_wattage v = Some w -> (w <= scan_power acc v)%Q) /\
                    (scan_power acc v = acc \/ first_wattage v = Some (scan_power acc v))).
    { rewrite scan_power_eq. destruct (first_wattage v) as [w|].
      - destruct (Num.gtb w acc) eqn:E.
        + apply gtb_lt in E. split; [now apply Qlt_le_weak|].
          split; [|now right]. intros ? [= <-]. apply Qle_refl.
        + apply gtb_false_le in E. split; [apply Qle_refl|].
          split; [|now left]. now intros ? [= <-].
      - split; [apply Qle_refl|]. split; [discriminate|now left]. }
    destruct Hstep as (S1 & S2 & S3).
    split; [eapply Qle_trans; eassumption|]. split.
    + intros v' w [<-|Hin] Hw.
      * eapply Qle_trans; [apply S2, Hw | exact Hacc].
      * eapply Hup; eassumption.
    + destruct Hatt as [E|(v' & Hin & Hw)].
      * rewrite E. destruct S3 as [S3|S3]; [now left|].
        right. exists v. split; [now left | exact S3].
      * right. exists v'. split; [now right | exact Hw].
Qed.

(** The result when the declared field is absent or zero. *)
Definition parsed_power (c : CableSpec) : option Q :=
  if Num.gtb (scan_protocols c) 0 then Some (scan_protocols c) else None.

Lemma parsed_power_some (c : CableSpec) (m : Q) :
  parsed_power c = Some m ->
  (0 < m)%Q /\
  (exists v, In v (Object_values c) /\ first_wattage v = Some m) /\
  (forall v w, In v (Object_values c) -> first_wattage v = Some w -> (w <= m)%Q).
Proof.
  unfold parsed_power, scan_protocols.
  destruct (scan_fold (Object_values c) 0) as (_ & Hup & Hatt). cbn zeta in *.
  destruct (Num.gtb _ 0) eqn:E; [|discriminate].
  intros [= <-]. apply gtb_lt in E. split; [exact E|]. split; [|exact Hup].
  destruct Hatt as [Z|H]; [|exact H].
  rewrite Z in E. exfalso. exact (Qlt_irrefl _ E).
Qed.

Lemma parsed_power_none (c : CableSpec) :
  parsed_power c = None <->
  forall v w, In v (Object_values c) -> first_wattage v = Some w -> (w <= 0)%Q.
Proof.
  unfold parsed_power, scan_protocols.
  destruct (scan_fold (Object_values c) 0) as (_ & Hup & Hatt). cbn zeta in *.
  destruct (Num.gtb _ 0) eqn:E.
  - split; [discriminate|]. intro H. exfalso. apply gtb_lt in E.
    destruct Hatt as [Z|(v & Hin & Hw)].
    + rewrite Z in E. exact (Qlt_irrefl _ E).
    + exact (Qlt_not_le _ _ E (H _ _ Hin Hw)).
  - split; [|reflexivity]. intros _ v w Hin Hw. apply gtb_false_le in E.
    eapply Qle_trans; [eapply Hup; eassumption | exact E].
Qed.

End NormalizedPower.

(** *** C5 and C6: numeric thresholds in a query *)

Section Search.

Import CableData.

Lemma search_In (P : Platform) (query : string) (c : CableSpec) :
  In c (fst (searchCables P query)) <->
  In c (allCables P) /\ matches query c = true.
Proof.
  unfold searchCables, allCables.
  destruct (getAllCategories P) as [cats log]. cbn [fst]. apply filter_In.
Qed.

Lemma geb_le (a b : Q) : Num.geb a b = true <-> (b <= a)%Q.
Proof. apply Qle_bool_iff. Qed.

Lemma rateMatch_iff (t : Q) (c : CableSpec) :
  ~ (t == 0)%Q ->
  (rateMatch (Some t) c = true <->
   exists v, In v (Object_values c) /\ (t <= data_rate_mbps v)%Q).
Proof.
  intro Hnz. unfold rateMatch. rewrite (proj2 (truthy_iff t) Hnz).
  unfold Js.some. rewrite existsb_exists.
  split; intros (v & Hin & H); exists v; (split; [exact Hin|]);
    now apply geb_le.
Qed.

Lemma powerMatchResult_iff (t : Q) (c : CableSpec) :
  (0 < t)%Q ->
  (powerMatchResult (Some t) c = true <->
   exists p, power_max (electrical c) = Some p /\ (t <= p)%Q).
Proof.
  intro Hpos. unfold powerMatchResult.
  assert (Hnz : ~ (t == 0)%Q).
  { intro E. rewrite E in Hpos. exact (Qlt_irrefl _ Hpos). }
  rewrite (proj2 (truthy_iff t) Hnz).
  destruct (power_max (electrical c)) as [p|].
  - rewrite andb_true_iff, geb_le, truthy_iff. split.
    + intros [_ H]. now exists p.
    + intros (p' & [= <-] & H). split; [|exact H].
      intro E. rewrite E in H. exact (Qlt_not_le _ _ Hpos H).
  - split; [discriminate | intros (p & [=] & _)].
Qed.

(** The catalog of one USB record; the other three category directories
    cannot be read. *)
Definition one_cable_platform (c : CableSpec) : Platform :=
  Sample.platform [("/app/data/usb", ["readme.md"; "cable.json"])]
                  [("/app/data/usb/cable.json", "cable")]
                  [("cable", c)].

(** USB-A, 480 Mbps, no text that reads like a rate. *)
Definition usb_a : CableSpec :=
  Sample.cable "USB-A"
    [("USB 2.0", Sample.protocol "2.0" 480 None ["Hot-pluggable"])] None.

(** A 40 Gbps record is found by the query "40 Gbps". *)
Definition usb4 : CableSpec :=
  Sample.cable "USB-C"
    [("USB4", Sample.protocol "1.0" 40000 None ["Tunneling"])] None.

(** A variant with its power-delivery text removed. *)
Definition without_power_text (v : ProtocolSpec) : ProtocolSpec :=
  {| version := version v; data_rate := data_rate v;
     data_rate_mbps := data_rate_mbps v; power_delivery := None;
     video_support := video_support v; features := features v;
     cable_requirements := cable_requirements v; max_length := max_length v |}.

(** A record with the power-delivery texts of all its variants removed. *)
Definition without_power_texts (c : CableSpec) : CableSpec :=
  {| type := type c; full_name := full_name c;
     standard_body := standard_body c; common_names := common_names c;
     protocols := map (fun kv => (fst kv, without_power_text (snd kv))) (protocols c);
     connector := connector c; electrical := electrical c;
     compatibility := compatibility c; common_devices := common_devices c;
     confusion_points := confusion_points c; buying_guide := buying_guide c;
     notes := notes c; sources := sources c; last_updated := last_updated c |}.

Lemma existsb_map {A B} (f : B -> bool) (g : A -> B) (l : list A) :
  existsb f (map g l) = existsb (fun x => f (g x)) l.
Proof. induction l; simpl; congruence. Qed.

Lemma keys_without_power_texts (c : CableSpec) :
  Object_keys (without_power_texts c) = Object_keys c.
Proof.
  unfold Object_keys. cbn [protocols without_power_texts].
  now rewrite map_map.
Qed.

Lemma values_without_power_texts (c : CableSpec) :
  Object_values (without_power_texts c)
  = map without_power_text (Object_values c).
Proof.
  unfold Object_values. cbn [protocols without_power_texts].
  now rewrite !map_map.
Qed.

(** The filter of the search never reads a power-delivery text. *)
Lemma matches_ignores_power_text (query : string) (c : CableSpec) :
  matches query (without_power_texts c) = matches query c.
Proof.
  assert (T : forall term, textMatch term (without_power_texts c) = textMatch term c).
  { intro term. unfold textMatch, Js.some.
    rewrite keys_without_power_texts, values_without_power_texts, existsb_map.
    reflexivity. }
  assert (R : forall t, rateMatch t (without_power_texts c) = rateMatch t c).
  { intros [t|]; [|reflexivity]. unfold rateMatch, Js.some.
    rewrite values_without_power_texts, existsb_map. reflexivity. }
  unfold matches. cbv zeta. now rewrite T, R.
Qed.

(** C5 (as amended).  The power threshold of "100W" is 100 and the query
    has no rate threshold.  A record is in the result of [search("100W")]
    exactly when it is in the catalog and either its text fields contain
    "100w" or its declared [power_max] is present and at least 100.  The
    power-delivery texts are never read: a record without a declared
    [power_max] whose text fields do not contain "100w" is excluded,
    whatever its power-delivery texts say, and removing those texts from a
    record never changes whether a query finds it. *)
Theorem search_100W (P : Platform) (c : CableSpec) :
  targetPower "100W" = Some 100%Q /\
  targetRateMbps "100W" = None /\
  (In c (fst (searchCables P "100W")) <->
   In c (allCables P) /\
   (textMatch "100w" c = true \/
    exists p, power_max (electrical c) = Some p /\ (100 <= p)%Q)) /\
  (power_max (electrical c) = None -> textMatch "100w" c = false ->
   ~ In c (fst (searchCables P "100W"))) /\
  (forall query, matches query (without_power_texts c) = matches query c).
Proof.
  assert (M : matches "100W" c = true <->
              textMatch "100w" c = true \/
              exists p, power_max (electrical c) = Some p /\ (100 <= p)%Q).
  { unfold matches.
    change (targetRateMbps "100W") with (@None Q).
    change (targetPower "100W") with (Some 100%Q).
    change (Js.toLowerCase "100W") with "100w".
    cbn [rateMatch]. rewrite orb_false_r, orb_true_iff.
    now rewrite (powerMatchResult_iff 100 c eq_refl). }
  split; [reflexivity|]. split; [reflexivity|]. split; [|split].
  - rewrite search_In, M. reflexivity.
  - intros Hp Ht Hin. apply search_In in Hin. destruct Hin as [_ Hm].
    apply M in Hm. destruct Hm as [Hm|(p & Hm & _)]; congruence.
  - intro query. apply matches_ignores_power_text.
Qed.

(** A charger declared at 140 W, and a record that says 100W only in a
    power-delivery text. *)
Definition charger_140 : CableSpec :=
  Sample.cable "USB-C"
    [("USB PD", Sample.protocol "3.1" 480 (Some "Up to 240W") [])] (Some 140%Q).

Definition text_only_100 : CableSpec :=
  Sample.cable "USB-C"
    [("USB PD", Sample.protocol "3.0" 480 (Some "Up to 100W") [])] None.

Lemma search_100W_witness :
  In charger_140 (fst (searchCables (one_cable_platform charger_140) "100W")) /\
  ~ In text_only_100 (fst (searchCables (one_cable_platform text_only_100) "100W")).
Proof.
  split.
  - apply (proj1 (proj2 (proj2 (search_100W (one_cable_platform charger_140) charger_140)))).
    split; [now left|]. right. exists 140%Q. split; [reflexivity | discriminate].
  - apply (proj1 (proj2 (proj2 (proj2
             (search_100W (one_cable_platform text_only_100) text_only_100)))));
      reflexivity.
Defined.

(** A record without a declared power whose feature text says 100W. *)
Definition feature_100 : CableSpec :=
  Sample.cable "USB-C"
    [("USB PD", Sample.protocol "3.0" 480 None ["100W charging"])] None.

(** C5 (as stated) fails: the query "100W" finds a record that declares no
    power at all, through the text of a feature. *)
Lemma search_100W_text_match :
  In feature_100 (fst (searchCables (one_cable_platform feature_100) "100W")) /\
  power_max (electrical feature_100) = None.
Proof. split; [now left | reflexivity]. Qed.

End Search.

(** *** C1: a malformed file in a category directory *)

Section Loading.

Import CableData.

Lemma map_throws_fails {A B} (f : A -> throws B) (l : list A) (x : A) (e : JsError) :
  In x l -> f x = inl e -> exists e', map_throws f l = inl e'.
Proof.
  induction l as [|y l IH]; [intros []|].
  intros [->|Hin] Hx; cbn [map_throws].
  - rewrite Hx. now exists e.
  - destruct (f y) as [e1|b]; [now exists e1|].
    destruct (IH Hin Hx) as [e' ->]. now exists e'.
Qed.

(** The message [loadCategoryData] logs. *)
Definition category_error (category : string) : string :=
  "Error loading category data for " ++ category ++ ":".

(** The path [loadCategoryData] reads a file of the category from. *)
Definition file_path (P : Platform) (category file : string) : string :=
  path_join P [path_join P [DATA_DIR P; category]; file].

(** C1 (as amended).  In a category directory that can be listed, a .json
    file that does not parse makes the whole load of the category fail:
    [loadCategoryData] returns the empty list and logs exactly one error.
    In particular, for a directory with one well-formed and one malformed
    .json file, in either order, the result is the empty list, not the
    well-formed record, and the one error logged is the parse error of the
    malformed file. *)
Theorem loadCategoryData_malformed (P : Platform) (category : string)
  (entries : list string) :
  readdirSync P (path_join P [DATA_DIR P; category]) = inr entries ->
  (forall file text err,
     In file entries -> Js.endsWith file ".json" = true ->
     readFileSync P (file_path P category file) = inr text ->
     JSON_parse P text = inl err ->
     exists e, loadCategoryData P category = ([], [(category_error category, e)])) /\
  (forall good bad goodText badText record err,
     filter (fun file => Js.endsWith file ".json") entries = [good; bad] \/
     filter (fun file => Js.endsWith file ".json") entries = [bad; good] ->
     readFileSync P (file_path P category good) = inr goodText ->
     JSON_parse P goodText = inr record ->
     readFileSync P (file_path P category bad) = inr badText ->
     JSON_parse P badText = inl err ->
     loadCategoryData P category = ([], [(category_error category, err)])).
Proof.
  intro Hdir. split.
  - intros file text err Hin Hjson Hread Hparse.
    assert (Hf : loadFile P (path_join P [DATA_DIR P; category]) file = inl err).
    { unfold loadFile. fold (file_path P category file). now rewrite Hread. }
    assert (Hin' : In file (filter (fun file => Js.endsWith file ".json") entries)).
    { apply filter_In. now split. }
    destruct (map_throws_fails _ _ _ _ Hin' Hf) as [e He].
    exists e. unfold loadCategoryData, loadCategoryData_try.
    now rewrite Hdir, He.
  - intros good bad goodText badText record err Hfiles Hg Hgp Hb Hbp.
    assert (Fg : loadFile P (path_join P [DATA_DIR P; category]) good = inr record).
    { unfold loadFile. fold (file_path P category good). now rewrite Hg. }
    assert (Fb : loadFile P (path_join P [DATA_DIR P; category]) bad = inl err).
    { unfold loadFile. fold (file_path P category bad). now rewrite Hb. }
    unfold loadCategoryData, loadCategoryData_try. rewrite Hdir.
    destruct Hfiles as [-> | ->]; cbn [map_throws]; rewrite ?Fg, ?Fb;
      reflexivity.
Qed.

(** A USB directory with a file that is not JSON next to a good one. *)
Definition mixed_platform : Platform :=
  Sample.platform
    [("/app/data/usb", ["usb-a.json"; "usb-x.json"; "notes.txt"])]
    [("/app/data/usb/usb-a.json", "usb-a record");
     ("/app/data/usb/usb-x.json", "{ type: ")]
    [("usb-a record", usb_a)].

Lemma loadCategoryData_malformed_witness :
  loadCategoryData mixed_platform "usb"
  = ([], [(category_error "usb", Error "SyntaxError")]).
Proof.
  apply (proj2 (loadCategoryData_malformed mixed_platform "usb"
                  ["usb-a.json"; "usb-x.json"; "notes.txt"] eq_refl)
           "usb-a.json" "usb-x.json" "usb-a record" "{ type: " usb_a
           (Error "SyntaxError")).
  - left. reflexivity.
  - reflexivity.
  - reflexivity.
  - reflexivity.
  - reflexivity.
Defined.

(** C1 (as stated) fails: the directory holds one well-formed and one
    malformed file, and the load does not return the well-formed record. *)
Lemma loadCategoryData_drops_all :
  readdirSync mixed_platform (path_join mixed_platform [DATA_DIR mixed_platform; "usb"])
  = inr ["usb-a.json"; "usb-x.json"; "notes.txt"] /\
  loadFile mixed_platform "/app/data/usb" "usb-a.json" = inr usb_a /\
  loadFile mixed_platform "/app/data/usb" "usb-x.json" = inl (Error "SyntaxError") /\
  fst (loadCategoryData mixed_platform "usb") <> [usb_a] /\
  List.length (snd (loadCategoryData mixed_platform "usb")) = 1%nat.
Proof. repeat split. discriminate. Qed.

End Loading.

(** *** C8: highlighting a term *)

Section Highlight.

Import CableCard.

Fixpoint take (n : nat) (s : string) : string :=
  match n, s with
  | S k, String c s' => String c (take k s')
  | _, _ => EmptyString
  end.

Fixpoint drop (n : nat) (s : string) : string :=
  match n, s with
  | S k, String _ s' => drop k s'
  | _, _ => s
  end.

(** [t] occurs at the head of [s], up to the case of the letters. *)
Fixpoint starts_ci (t s : string) : bool :=
  match t with
  | EmptyString => true
  | String b t' =>
      match s with
      | EmptyString => false
      | String a s' => Re.char_eq true b a && starts_ci t' s'
      end
  end.

(** Two texts that differ at most in the case of their letters. *)
Definition same_ci (a b : string) : Prop :=
  map_chars Js.upper_char a = map_chars Js.upper_char b.

(** A highlighted text: characters left as they are, and marked
    occurrences of the term. *)
Inductive piece : Type :=
| Plain (c : ascii)
| Marked (t : string).


(** The highlight marker of the card: a [mark] element with the classes
    of the highlight. *)
Definition marker_open : string :=
  "<mark class=" ++ Js.quoted "bg-warning/30 text-foreground rounded px-0.5" ++ ">".

Definition marker_close : string := "</mark>".

(** The markup of the pieces: each occurrence wrapped in the marker. *)
Fixpoint render (ps : list piece) : string :=
  match ps with
  | [] => EmptyString
  | Plain c :: r => String c (render r)
  | Marked t :: r => marker_open ++ t ++ marker_close ++ render r
  end.


(** Following the specification: going through [s] from the left, every
    occurrence of [term] is marked and the search goes on behind it;
    [skip] counts the characters of the last occurrence still ahead. *)
Fixpoint pieces (term : string) (skip : nat) (s : string) {struct s} : list piece :=
  match s with
  | EmptyString => []
  | String c s' =>
      match skip with
      | S k => pieces term k s'
      | O =>
          if starts_ci term s
          then Marked (take (String.length term) s)
               :: pieces term (String.length term - 1) s'
          else Plain c :: pieces term 0 s'
      end
  end.

Definition occurrences (term s : string) : list piece := pieces term 0 s.

Lemma take_drop (n : nat) (s : string) : take n s ++ drop n s = s.
Proof.
  revert s. induction n as [|n IH]; intros [|c s]; simpl; try reflexivity.
  now rewrite IH.
Qed.

Lemma starts_ci_take (t s : string) :
  starts_ci t s = true ->
  String.length (take (String.length t) s) = String.length t /\
  same_ci (take (String.length t) s) t.
Proof.
  unfold same_ci. revert s. induction t as [|b t IH]; intros s H.
  - now destruct s.
  - destruct s as [|a s]; [discriminate|]. cbn [starts_ci] in H.
    apply andb_true_iff in H. destruct H as [Hc Hs].
    destruct (IH _ Hs) as [IH1 IH2]. cbn [String.length take map_chars].
    split; [now rewrite IH1|]. rewrite IH2. f_equal.
    unfold Re.char_eq, Re.canon in Hc. apply Ascii.eqb_eq in Hc. now symmetry.
Qed.

(** Matching a literal is comparing it with the head of the input. *)
Lemma m_Lit (t s : string) (cs : Re.caps) (k : Re.cont) :
  Re.m true (Re.Lit t) s cs k =
  if starts_ci t s then k (drop (String.length t) s) cs else None.
Proof.
  revert s. induction t as [|b t IH]; intro s.
  - now destruct s.
  - cbn [Re.Lit Re.m]. destruct s as [|a s]; [reflexivity|].
    cbn [starts_ci String.length drop].
    destruct (Re.char_eq true b a); [apply IH | reflexivity].
Qed.

Lemma match_at_group_Lit (t s : string) :
  Re.match_at true (Re.Group 1 (Re.Lit t)) s =
  if starts_ci t s
  then let w := take (String.length t) s in
       Some (Re.mkResult w [(1%nat, w)] (drop (String.length t) s))
  else None.
Proof.
  unfold Re.match_at. cbn [Re.m]. rewrite m_Lit.
  destruct (starts_ci t s); [|reflexivity]. cbv zeta.
  rewrite <- (take_drop (String.length t) s) at 1 3.
  now rewrite consumed_app.
Qed.

(** The replacement loop on the compiled term builds the marked pieces. *)
Lemma replace_from_pieces (term : string) (skip : nat) (s : string) :
  term <> EmptyString ->
  Re.replace_from true (Re.Group 1 (Re.Lit term)) mark skip s
  = render (pieces term skip s).
Proof.
  intro Hne. revert skip. induction s as [|c s IH]; intro skip.
  - destruct skip; cbn [Re.replace_from pieces render]; [|reflexivity].
    rewrite match_at_group_Lit.
    destruct term; [contradiction | reflexivity].
  - destruct skip as [|k]; cbn [Re.replace_from pieces]; [|apply IH].
    rewrite match_at_group_Lit.
    destruct (starts_ci term (String c s)) eqn:E.
    + cbv zeta. cbn [Re.matched render].
      destruct (starts_ci_take _ _ E) as [Hlen _]. rewrite Hlen.
      destruct term as [|b term]; [contradiction|].
      cbn [String.length Nat.sub]. rewrite Nat.sub_0_r, IH.
      unfold mark, CableData.at_group, Re.group. cbn [Re.groups Re.cap Nat.eqb].
      now rewrite !str_app_assoc.
    + cbn [render]. now rewrite IH.
Qed.




(** Escaping puts a backslash before the syntax characters and nothing
    else, and the pattern reads back as the literal term. *)
Lemma meta_class (c : ascii) :
  Re.class_match false false (map Re.One Re.syntax_chars) c = Re.is_syntax_char c.
Proof. destruct c as [[] [] [] [] [] [] [] []]; reflexivity. Qed.

Lemma not_syntax_char (c : ascii) :
  Re.is_syntax_char c = false ->
  Ascii.eqb c ")" = false /\ Ascii.eqb c "\" = false.
Proof.
  destruct c as [[] [] [] [] [] [] [] []]; intro H;
    solve [split; reflexivity | discriminate H].
Qed.

Lemma escapeRegExp_cons (c : ascii) (t : string) :
  escapeRegExp (String c t) =
  if Re.is_syntax_char c
  then String "\" (String c (escapeRegExp t))
  else String c (escapeRegExp t).
Proof.
  unfold escapeRegExp, meta_re. rewrite replace_class_cons, meta_class.
  now destruct (Re.is_syntax_char c).
Qed.

Lemma parse_escaped (t : string) :
  Re.parse_atoms (escapeRegExp t ++ ")") = Some (Re.Lit t, ")").
Proof.
  induction t as [|c t IH]; [reflexivity|].
  rewrite escapeRegExp_cons. destruct (Re.is_syntax_char c) eqn:E.
  - cbn [append Re.parse_atoms]. cbn [Ascii.eqb Bool.eqb].
    now rewrite E, IH.
  - cbn [append Re.parse_atoms].
    destruct (not_syntax_char c E) as [-> ->]. now rewrite E, IH.
Qed.

Lemma compile_escaped (t : string) :
  Re.compile ("(" ++ escapeRegExp t ++ ")") = Some (Re.Group 1 (Re.Lit t)).
Proof.
  cbn [append Re.compile]. now rewrite parse_escaped.
Qed.

Lemma highlightText_pieces (text term : string) :
  term <> EmptyString ->
  highlightText text (Some term)
  = inr (render (occurrences term (escapeHtml text))).
Proof.
  intro Hne. unfold highlightText, occurrences.
  destruct term as [|b term]; [contradiction|]. cbn [String.length Nat.eqb orb].
  destruct text as [|a text]; [reflexivity|]. cbn [String.length Nat.eqb].
  rewrite compile_escaped. unfold Re.replace_all.
  now rewrite replace_from_pieces.
Qed.

Variable toString : Q -> string.



End Highlight.



(** The word "obsolete" in the notes makes a record legacy. *)
Lemma isLegacy_iff_witness :
  CableCard.isLegacy (Sample.card "VGA" None [] "Obsolete since 2015") = true.
Proof.
  apply (proj2 (isLegacy_iff (Sample.card "VGA" None [] "Obsolete since 2015"))).
  left. left. exists EmptyString, "Obsolete", " since 2015".
  split; reflexivity.
Defined.

(* ================================================================= *)
(** ** Further properties of the loader *)

Section LoaderOutcome.

Import CableData.

(** The message [loadCableData] logs. *)
Definition cable_error (category type : string) : string :=
  "Error loading cable data for " ++ category ++ "/" ++ type ++ ":".

(** The path [loadCableData] reads. *)
Definition cable_path (P : Platform) (category type : string) : string :=
  path_join P [DATA_DIR P; category; type ++ ".json"].

(** [loadCableData] on the values [JSON.parse] returns.  The result type
    the code declares is not checked when it runs: the value a text parses
    to is returned as it is, whatever it is ([null], for the text of that
    word).  [V] is the type of the parsed values, [parse] is [JSON.parse]
    on them, and [None] is the [null] of the [catch] block. *)
Definition loadCableData_value {V : Type} (P : Platform)
  (parse : string -> throws V) (category type : string) : logged (option V) :=
  let filePath := path_join P [DATA_DIR P; category; type ++ ".json"] in
  let body : throws V :=
    match readFileSync P filePath with
    | inl e => inl e
    | inr jsonData => parse jsonData
    end in
  match body with
  | inr v => (Some v, [])
  | inl error =>
      (None, [("Error loading cable data for " ++ category ++ "/" ++ type ++ ":", error)])
  end.

(** A data directory whose file [usb/usb-a.json] holds the text [null]. *)
Definition null_file_platform : Platform :=
  Sample.platform [] [("/app/data/usb/usb-a.json", "null")] [].

(** A parser of values that are a record or [null] (here [None]); it
    accepts the text [null] only. *)
Definition parse_null (text : string) : throws (option CableSpec) :=
  if String.eqb text "null" then inr None else inl (Error "SyntaxError").

(** X1.  [loadCableData] never raises, and returns the value the text of
    the file parses to, whatever that value is.  A file that cannot be
    read, or whose text [JSON.parse] rejects, gives [null] and exactly one
    logged error, which names the category and the type and carries the
    exception; a text that parses gives the parsed value and no log.  It
    logs at most once, and whenever it logs it returns [null].  On records
    of the declared type it is [loadCableData] as defined above. *)
Theorem loadCableData_outcome {V : Type} (P : Platform)
  (parse : string -> throws V) (category type : string) :
  loadCableData P category type
  = loadCableData_value P (JSON_parse P) category type /\
  (forall e,
     readFileSync P (cable_path P category type) = inl e ->
     loadCableData_value P parse category type
     = (None, [(cable_error category type, e)])) /\
  (forall text e,
     readFileSync P (cable_path P category type) = inr text ->
     parse text = inl e ->
     loadCableData_value P parse category type
     = (None, [(cable_error category type, e)])) /\
  (forall text v,
     readFileSync P (cable_path P category type) = inr text ->
     parse text = inr v ->
     loadCableData_value P parse category type = (Some v, [])) /\
  (List.length (snd (loadCableData_value P parse category type)) <= 1)%nat /\
  (snd (loadCableData_value P parse category type) <> [] ->
   fst (loadCableData_value P parse category type) = None).
Proof.
  split; [reflexivity|].
  unfold loadCableData_value, cable_path, cable_error.
  destruct (readFileSync P (path_join P [DATA_DIR P; category; type ++ ".json"]))
    as [e|text].
  - repeat split; try discriminate; try (cbn; lia).
    now intros e' [= <-].
  - destruct (parse text) as [e|v0] eqn:E.
    + repeat split; try discriminate; try (cbn; lia).
      * intros text' e' [= <-] H. congruence.
      * intros text' v [= <-] H. congruence.
    + repeat split; try discriminate; try (cbn; lia).
      * intros text' e' [= <-] H. congruence.
      * intros text' v [= <-] H. congruence.
      * cbn. intro H. now contradiction H.
Qed.

(** The text [null] parses: the result is [null] and nothing is logged.  A
    file that is not there gives [null] and the error of the read. *)
Lemma loadCableData_outcome_witness :
  loadCableData_value null_file_platform parse_null "usb" "usb-a" = (Some None, []) /\
  loadCableData_value null_file_platform parse_null "usb" "usb-b"
  = (None, [(cable_error "usb" "usb-b", Error "ENOENT")]).
Proof.
  split.
  - apply (proj1 (proj2 (proj2 (proj2
             (loadCableData_outcome null_file_platform parse_null "usb" "usb-a"))))
             "null" None); reflexivity.
  - apply (proj1 (proj2
             (loadCableData_outcome null_file_platform parse_null "usb" "usb-b"))
             (Error "ENOENT")); reflexivity.
Defined.

Lemma map_throws_inr {A B} (f : A -> throws B) (l : list A) (ys : list B) :
  map_throws f l = inr ys <-> Forall2 (fun x y => f x = inr y) l ys.
Proof.
  revert ys. induction l as [|x l IH]; intro ys; cbn [map_throws].
  - split; [intros [= <-]; constructor | intro H; now inversion H].
  - destruct (f x) as [e|y] eqn:E.
    + split; [discriminate | intro H; inversion H; congruence].
    + destruct (map_throws f l) as [e|ys'] eqn:E'.
      * split; [discriminate|]. intro H. inversion H; subst.
        apply IH in H4. discriminate.
      * split.
        -- intros [= <-]. constructor; [exact E | now apply IH].
        -- intro H. inversion H; subst. apply IH in H4.
           injection H4 as <-. congruence.
Qed.

Lemma sort_insert_perm {A} (cmp : A -> A -> Z) (x : A) (l : list A) :
  Permutation (x :: l) (sort_insert cmp x l).
Proof.
  induction l as [|y l IH]; cbn [sort_insert]; [apply Permutation_refl|].
  destruct (0 <? cmp x y)%Z; [|apply Permutation_refl].
  eapply Permutation_trans; [apply perm_swap | now apply perm_skip].
Qed.

Lemma sort_perm {A} (cmp : A -> A -> Z) (l : list A) :
  Permutation l (sort cmp l).
Proof.
  induction l as [|x l IH]; [apply Permutation_refl|]. cbn [sort fold_right].
  eapply Permutation_trans; [apply perm_skip, IH | apply sort_insert_perm].
Qed.

Section SortOrder.

Context {A : Type} (cmp : A -> A -> Z).

(** The comparator never says of two elements that each comes after the
    other. *)
Hypothesis cmp_consistent : forall a b, (0 < cmp a b)%Z -> (cmp b a <= 0)%Z.

Let le (a b : A) : Prop := (cmp a b <= 0)%Z.

Lemma sort_insert_sorted (x : A) (l : list A) :
  Sorted le l -> Sorted le (sort_insert cmp x l).
Proof.
  induction l as [|y l IH]; intro H; cbn [sort_insert].
  - repeat constructor.
  - destruct (0 <? cmp x y)%Z eqn:E.
    + apply Sorted_inv in H. destruct H as [Hs Hh].
      constructor; [now apply IH|].
      apply Z.ltb_lt in E.
      destruct l as [|z l]; cbn [sort_insert].
      * constructor. now apply cmp_consistent.
      * destruct (0 <? cmp x z)%Z.
        -- constructor. now inversion Hh.
        -- constructor. now apply cmp_consistent.
    + constructor; [exact H|]. constructor. apply Z.ltb_ge in E. exact E.
Qed.

Lemma sort_sorted (l : list A) : Sorted le (sort cmp l).
Proof.
  induction l as [|x l IH]; [constructor|].
  cbn [sort fold_right]. now apply sort_insert_sorted.
Qed.

End SortOrder.

(** The .json entries of a directory listing. *)
Definition json_files (entries : list string) : list string :=
  filter (fun file => Js.endsWith file ".json") entries.

(** X2.  Whenever [loadCategoryData] logs nothing, the directory of the
    category was listed and every .json entry of it was read and parsed
    (the other entries are ignored), and the result holds exactly the
    parsed records, each once; and when [localeCompare] is a consistent
    comparison (it never puts each of two types after the other, and is
    transitive), every record of the result collates before or with every
    record after it. *)
Theorem loadCategoryData_sorted (P : Platform) (category : string) :
  snd (loadCategoryData P category) = [] ->
  exists entries loaded,
    readdirSync P (path_join P [DATA_DIR P; category]) = inr entries /\
    Forall2 (fun file c => loadFile P (path_join P [DATA_DIR P; category]) file = inr c)
            (json_files entries) loaded /\
    Permutation loaded (fst (loadCategoryData P category)) /\
    ((forall a b, (0 < localeCompare P a b)%Z -> (localeCompare P b a <= 0)%Z) ->
     (forall a b c, (localeCompare P a b <= 0)%Z -> (localeCompare P b c <= 0)%Z ->
                    (localeCompare P a c <= 0)%Z) ->
     StronglySorted (fun a b => (localeCompare P (type a) (type b) <= 0)%Z)
                    (fst (loadCategoryData P category))).
Proof.
  unfold loadCategoryData, loadCategoryData_try.
  destruct (readdirSync P (path_join P [DATA_DIR P; category])) as [e|entries];
    [discriminate|].
  fold (json_files entries).
  destruct (map_throws (loadFile P (path_join P [DATA_DIR P; category]))
              (json_files entries)) as [e|loaded] eqn:E; [discriminate|].
  intros _. exists entries, loaded. cbn [fst].
  split; [reflexivity|]. split; [now apply map_throws_inr|].
  split; [apply sort_perm|].
  intros Hc Ht. apply Sorted_StronglySorted.
  - intros a b c. apply Ht.
  - apply (sort_sorted (fun a b => localeCompare P (type a) (type b))).
    intros a b. apply Hc.
Qed.

Lemma loadCategoryData_cases (P : Platform) (category : string) :
  snd (loadCategoryData P category) = [] \/
  exists e, loadCategoryData P category = ([], [(category_error category, e)]).
Proof.
  unfold loadCategoryData.
  destruct (loadCategoryData_try P category) as [e|l]; [right; now exists e | now left].
Qed.

(** X3.  [loadCategoryData] either logs nothing, or returns the empty list
    and logs exactly one error with the category in its message: it never
    returns records together with an error and never logs twice.  A
    directory that cannot be listed gives the empty list and the error of
    the listing. *)
Theorem loadCategoryData_outcome (P : Platform) (category : string) :
  (snd (loadCategoryData P category) = [] \/
   exists e, loadCategoryData P category = ([], [(category_error category, e)])) /\
  (forall e, readdirSync P (path_join P [DATA_DIR P; category]) = inl e ->
             loadCategoryData P category = ([], [(category_error category, e)])).
Proof.
  split; [apply loadCategoryData_cases|].
  intros e H. unfold loadCategoryData, loadCategoryData_try. now rewrite H.
Qed.

End LoaderOutcome.

Section Catalog.

Import CableData.

(** A USB directory with two good files, listed out of order. *)
Definition two_cable_platform : Platform :=
  Sample.platform
    [("/app/data/usb", ["usb-c.json"; "notes.txt"; "usb-a.json"])]
    [("/app/data/usb/usb-c.json", "usb-c record");
     ("/app/data/usb/usb-a.json", "usb-a record")]
    [("usb-c record", usb4); ("usb-a record", usb_a)].

(** The two files of the directory are listed out of order and come back
    in order; the entry that is no .json file is ignored. *)
Lemma loadCategoryData_sorted_witness :
  fst (loadCategoryData two_cable_platform "usb") = [usb_a; usb4] /\
  exists entries loaded,
    readdirSync two_cable_platform
      (path_join two_cable_platform [DATA_DIR two_cable_platform; "usb"])
    = inr entries /\
    Forall2 (fun file c =>
               loadFile two_cable_platform
                 (path_join two_cable_platform [DATA_DIR two_cable_platform; "usb"])
                 file = inr c)
            (json_files entries) loaded /\
    Permutation loaded (fst (loadCategoryData two_cable_platform "usb")).
Proof.
  split; [reflexivity|].
  destruct (loadCategoryData_sorted two_cable_platform "usb" eq_refl)
    as (entries & loaded & H1 & H2 & H3 & _).
  now exists entries, loaded.
Defined.

Lemma loadCategoryData_outcome_witness :
  loadCategoryData two_cable_platform "video"
  = ([], [(category_error "video", Error "ENOENT")]).
Proof.
  apply (proj2 (loadCategoryData_outcome two_cable_platform "video")).
  reflexivity.
Defined.

Lemma loadAll_shape (P : Platform) (cats : list (string * string * string)) :
  map (fun c => (cat_name c, slug c, description c)) (fst (loadAll P cats)) = cats /\
  Forall (fun c => cables c = fst (loadCategoryData P (slug c))) (fst (loadAll P cats)) /\
  (List.length (snd (loadAll P cats)) <= List.length cats)%nat.
Proof.
  induction cats as [|[[n s] d] cats (IH1 & IH2 & IH3)]; cbn [loadAll].
  - repeat split; [constructor | apply Nat.le_refl].
  - pose proof (loadCategoryData_cases P s) as Ho.
    destruct (loadCategoryData P s) as [cs log1] eqn:E.
    destruct (loadAll P cats) as [rest log2]. cbn [fst snd] in *.
    cbn [map cat_name slug description]. rewrite IH1.
    split; [reflexivity|]. split.
    + constructor; [cbn [cables slug]; now rewrite E | exact IH2].
    + rewrite length_app. cbn [List.length].
      destruct Ho as [->|(e & [= _ ->])]; cbn [List.length]; lia.
Qed.

(** X4.  Whatever the file system holds, [getAllCategories] returns the
    four categories of its registry (USB, Video, Audio, Power) in that
    order, each with the records [loadCategoryData] gives for its slug (the
    empty list for a directory that fails to load), and logs at most four
    errors. *)
Theorem getAllCategories_shape (P : Platform) :
  map (fun c => (cat_name c, slug c, description c)) (fst (getAllCategories P))
  = categories /\
  map slug (fst (getAllCategories P)) = ["usb"; "video"; "audio"; "power"] /\
  Forall (fun c => cables c = fst (loadCategoryData P (slug c)))
         (fst (getAllCategories P)) /\
  (List.length (snd (getAllCategories P)) <= 4)%nat.
Proof.
  destruct (loadAll_shape P categories) as (H1 & H2 & H3).
  split; [exact H1|]. split; [|split; [exact H2 | exact H3]].
  change ["usb"; "video"; "audio"; "power"]
    with (map (fun t : string * string * string => snd (fst t)) categories).
  rewrite <- H1. now rewrite map_map.
Qed.

Lemma Forall2_In_left {A B} (R : A -> B -> Prop) (l : list A) (ys : list B) (x : A) :
  Forall2 R l ys -> In x l -> exists y, In y ys /\ R x y.
Proof.
  induction 1 as [|a b l ys Hab _ IH]; [intros []|].
  intros [<-|Hin].
  - exists b. split; [now left | exact Hab].
  - destruct (IH Hin) as (y & Hy & Hr). exists y. split; [now right | exact Hr].
Qed.

(** X5.  A file that the category load has read is the file the
    single-record load reads: when joining the data directory, the category
    and the file name in two steps gives the path of joining them in one,
    and the category loads without an error, then for every listed file
    [t.json] the load of [t] returns a record without logging, and that
    record is among those of the category. *)
Theorem loadCableData_in_category (P : Platform) (category t : string)
  (entries : list string) :
  readdirSync P (path_join P [DATA_DIR P; category]) = inr entries ->
  In (t ++ ".json") entries ->
  path_join P [path_join P [DATA_DIR P; category]; t ++ ".json"]
  = path_join P [DATA_DIR P; category; t ++ ".json"] ->
  snd (loadCategoryData P category) = [] ->
  exists c, loadCableData P category t = (Some c, []) /\
            In c (fst (loadCategoryData P category)).
Proof.
  intros Hdir Hin Hpath Hlog.
  assert (Hjson : Js.endsWith (t ++ ".json") ".json" = true).
  { unfold Js.endsWith. rewrite str_app_length.
    cbn [String.length]. apply andb_true_iff. split; [apply Nat.leb_le; lia|].
    replace (String.length t + 5 - 5)%nat with (String.length t) by lia.
    apply String.eqb_eq. clear. induction t as [|a t IH]; [reflexivity|].
    cbn [append String.length substring]. exact IH. }
  unfold loadCategoryData, loadCategoryData_try in *. rewrite Hdir in *.
  fold (json_files entries) in *.
  destruct (map_throws (loadFile P (path_join P [DATA_DIR P; category]))
              (json_files entries)) as [e|loaded] eqn:E; [discriminate Hlog|].
  cbn [fst]. apply map_throws_inr in E.
  assert (Hin' : In (t ++ ".json") (json_files entries)).
  { apply filter_In. now split. }
  destruct (Forall2_In_left _ _ _ _ E Hin') as (c & Hc & Hload).
  exists c. split.
  - unfold loadFile in Hload. rewrite Hpath in Hload.
    unfold loadCableData.
    destruct (readFileSync P (path_join P [DATA_DIR P; category; t ++ ".json"]));
      [discriminate Hload|].
    now rewrite Hload.
  - eapply Permutation_in; [apply sort_perm | exact Hc].
Qed.

Lemma loadCableData_in_category_witness :
  exists c, loadCableData two_cable_platform "usb" "usb-a" = (Some c, []) /\
            In c (fst (loadCategoryData two_cable_platform "usb")).
Proof.
  apply (loadCableData_in_category two_cable_platform "usb" "usb-a"
           ["usb-c.json"; "notes.txt"; "usb-a.json"]).
  - reflexivity.
  - right. right. now left.
  - reflexivity.
  - reflexivity.
Defined.

End Catalog.

(* ================================================================= *)
(** ** Further properties of the slug resolver *)

Section SlugResolver.

Import CableData.

(** The test of [getCableBySlug] on one record. *)
Definition has_slug (s : string) (c : CableSpec) : bool :=
  String.eqb (slugify (type c)) s.

Lemma find_app_first {A} (p : A -> bool) (l1 l2 : list A) :
  find p (l1 ++ l2)%list
  = match find p l1 with Some x => Some x | None => find p l2 end.
Proof.
  induction l1 as [|x l1 IH]; [reflexivity|]. cbn [app find].
  now destruct (p x).
Qed.

Lemma find_slug_find (category : string) (cs : list CableSpec) (s : string) :
  find_slug category cs s
  = option_map (fun c => (c, category)) (find (has_slug s) cs).
Proof.
  induction cs as [|c cs IH]; [reflexivity|]. cbn [find_slug find].
  unfold has_slug at 1. now destruct (String.eqb (slugify (type c)) s).
Qed.

Lemma find_in_categories_find (cats : list CableCategory) (s : string) :
  option_map fst (find_in_categories cats s)
  = find (has_slug s) (flat_map cables cats).
Proof.
  induction cats as [|cat cats IH]; [reflexivity|].
  cbn [find_in_categories flat_map]. rewrite find_app_first, find_slug_find.
  destruct (find (has_slug s) (cables cat)); [reflexivity | exact IH].
Qed.

Lemma find_in_categories_sound (cats : list CableCategory) (s : string)
  (c : CableSpec) (category : string) :
  find_in_categories cats s = Some (c, category) ->
  exists cat, In cat cats /\ slug cat = category /\ In c (cables cat) /\
              slugify (type c) = s.
Proof.
  induction cats as [|cat cats IH]; [discriminate|].
  cbn [find_in_categories]. rewrite find_slug_find.
  destruct (find (has_slug s) (cables cat)) as [c0|] eqn:E; cbn [option_map].
  - intros [= <- <-]. apply find_some in E. destruct E as [Hin Hs].
    exists cat. split; [now left|]. split; [reflexivity|].
    split; [exact Hin | now apply String.eqb_eq].
  - intro H. destruct (IH H) as (cat' & Hin & Hrest).
    exists cat'. split; [now right | exact Hrest].
Qed.

Lemma getCableBySlug_find (P : Platform) (s : string) :
  option_map fst (fst (getCableBySlug P s)) = find (has_slug s) (allCables P) /\
  (forall c category,
     fst (getCableBySlug P s) = Some (c, category) ->
     exists cat, In cat (fst (getAllCategories P)) /\ slug cat = category /\
                 In c (cables cat) /\ slugify (type c) = s).
Proof.
  unfold getCableBySlug, allCables.
  destruct (getAllCategories P) as [cats log]. cbn [fst].
  split; [apply find_in_categories_find|].
  intros c category. apply find_in_categories_sound.
Qed.

Lemma getCableBySlug_none (P : Platform) (s : string) :
  fst (getCableBySlug P s) = None <->
  forall c, In c (allCables P) -> slugify (type c) <> s.
Proof.
  destruct (getCableBySlug_find P s) as [F _]. split.
  - intros H c Hin E. rewrite H in F. cbn [option_map] in F. symmetry in F.
    apply (find_none _ _ F) in Hin. unfold has_slug in Hin.
    apply String.eqb_neq in Hin. contradiction.
  - intro H. destruct (fst (getCableBySlug P s)) as [[c cat]|]; [|reflexivity].
    cbn [option_map fst] in F. symmetry in F. apply find_some in F.
    destruct F as [Hin Hs]. apply String.eqb_eq in Hs.
    exfalso. exact (H c Hin Hs).
Qed.

(** X6.  [getCableBySlug] resolves a slug to the FIRST record of the
    catalog, in catalog order, whose type has that slug; it returns [null]
    exactly when no record of the catalog has the slug.  The category it
    returns is the slug of a category of the catalog that holds the
    record. *)
Theorem getCableBySlug_first (P : Platform) (s : string) :
  option_map fst (fst (getCableBySlug P s))
  = find (fun c => String.eqb (slugify (type c)) s) (allCables P) /\
  (fst (getCableBySlug P s) = None <->
   forall c, In c (allCables P) -> slugify (type c) <> s) /\
  (forall c category,
     fst (getCableBySlug P s) = Some (c, category) ->
     exists cat, In cat (fst (getAllCategories P)) /\ slug cat = category /\
                 In c (cables cat) /\ slugify (type c) = s).
Proof.
  split; [exact (proj1 (getCableBySlug_find P s))|].
  split; [apply getCableBySlug_none | exact (proj2 (getCableBySlug_find P s))].
Qed.

Lemma getCableBySlug_first_witness :
  exists cat, In cat (fst (getAllCategories two_cable_platform)) /\
              slug cat = "usb" /\ In usb_a (cables cat) /\
              slugify (type usb_a) = "usb-a".
Proof.
  apply (proj2 (proj2 (getCableBySlug_first two_cable_platform "usb-a")) usb_a "usb").
  reflexivity.
Defined.

(** X7.  A slug taken from the catalog resolves: the slug of the type of
    any record of the catalog (the slug a card links to) is resolved by
    [getCableBySlug] to a record of the catalog with the same slug, never
    to [null]; when no two records of the catalog share a slug, it is
    resolved to that very record. *)
Theorem getCableBySlug_resolves (P : Platform) (c : CableSpec) :
  In c (allCables P) ->
  exists c' category,
    fst (getCableBySlug P (slugify (type c))) = Some (c', category) /\
    slugify (type c') = slugify (type c) /\
    In c' (allCables P) /\
    ((forall a b, In a (allCables P) -> In b (allCables P) ->
                  slugify (type a) = slugify (type b) -> a = b) ->
     c' = c).
Proof.
  intro Hin.
  pose proof (getCableBySlug_none P (slugify (type c))) as Hnone.
  destruct (getCableBySlug_find P (slugify (type c))) as (_ & Hsome).
  destruct (fst (getCableBySlug P (slugify (type c)))) as [[c' category]|] eqn:E.
  - destruct (Hsome c' category eq_refl) as (cat & Hcat & _ & Hc' & Hs).
    assert (Hin' : In c' (allCables P)).
    { unfold allCables. apply in_flat_map. now exists cat. }
    exists c', category. split; [reflexivity|]. split; [exact Hs|].
    split; [exact Hin'|]. intro Huniq. now apply Huniq.
  - exfalso. exact (proj1 Hnone eq_refl c Hin eq_refl).
Qed.

Lemma getCableBySlug_resolves_witness :
  exists c' category,
    fst (getCableBySlug two_cable_platform (slugify (type usb4))) = Some (c', category) /\
    slugify (type c') = slugify (type usb4) /\
    In c' (allCables two_cable_platform) /\
    ((forall a b, In a (allCables two_cable_platform) ->
                  In b (allCables two_cable_platform) ->
                  slugify (type a) = slugify (type b) -> a = b) ->
     c' = usb4).
Proof.
  apply (getCableBySlug_resolves two_cable_platform usb4).
  right. now left.
Defined.

Lemma lower_char_idem (c : ascii) : Js.lower_char (Js.lower_char c) = Js.lower_char c.
Proof. destruct c as [[] [] [] [] [] [] [] []]; reflexivity. Qed.

Lemma map_chars_length (f : ascii -> ascii) (s : string) :
  String.length (map_chars f s) = String.length s.
Proof. induction s; simpl; congruence. Qed.

(** X8.  A slug is safe in a path: it consists only of lower-case letters,
    digits and hyphens.  The slug of an ASCII type has as many characters
    as the type and does not depend on the case of its letters, so two
    ASCII types that differ only in case share their slug. *)
Theorem slugify_safe (s : string) :
  all_chars is_slug_char (slugify s) = true /\
  (is_ascii s = true ->
   String.length (slugify s) = String.length s /\
   slugify (Js.toLowerCase s) = slugify s).
Proof.
  rewrite !slugify_map. split; [apply map_slug_char_all|].
  intros _. split; [apply map_chars_length|].
  induction s as [|c s IH]; [reflexivity|].
  cbn [Js.toLowerCase map_chars]. rewrite IH. f_equal.
  unfold slug_char. now rewrite lower_char_idem.
Qed.

Lemma slugify_safe_witness :
  String.length (slugify "USB-C") = String.length "USB-C" /\
  slugify (Js.toLowerCase "USB-C") = slugify "USB-C".
Proof.
  apply (proj2 (slugify_safe "USB-C")). reflexivity.
Defined.

End SlugResolver.

(* ================================================================= *)
(** ** Further properties of the search *)

Section SearchMore.

Import CableData.

(** The query occurs, up to case, in one of the text fields the search
    reads; [term] is the lower-cased query. *)
Definition text_hit (term : string) (c : CableSpec) : Prop :=
  contains_ci (type c) term \/
  contains_ci (full_name c) term \/
  (exists n, In n (common_names c) /\ contains_ci n term) \/
  (exists d, In d (common_devices c) /\ contains_ci d term) \/
  (exists k, In k (Object_keys c) /\ contains_ci k term) \/
  (exists v, In v (Object_values c) /\
             (contains_ci (version v) term \/
              exists f, In f (features v) /\ contains_ci f term)).

Lemma some_contains (term : string) (l : list string) :
  Js.some (fun s => Js.includes (Js.toLowerCase s) term) l = true <->
  exists s, In s l /\ contains_ci s term.
Proof.
  unfold Js.some. rewrite existsb_exists.
  split; intros (s & Hin & H); exists s; (split; [exact Hin|]);
    now apply includes_lower_iff.
Qed.

Lemma textMatch_iff (term : string) (c : CableSpec) :
  textMatch term c = true <-> text_hit term c.
Proof.
  unfold textMatch, text_hit. cbv zeta.
  rewrite !orb_true_iff, !some_contains, !includes_lower_iff.
  assert (V : Js.some
                (fun spec =>
                   Js.includes (Js.toLowerCase (version spec)) term ||
                   Js.some (fun s => Js.includes (Js.toLowerCase s) term) (features spec))
                (Object_values c) = true <->
              exists v, In v (Object_values c) /\
                        (contains_ci (version v) term \/
                         exists f, In f (features v) /\ contains_ci f term)).
  { unfold Js.some at 1. rewrite existsb_exists.
    split; intros (v & Hin & H); exists v; (split; [exact Hin|]).
    - apply orb_true_iff in H. now rewrite some_contains, includes_lower_iff in H.
    - apply orb_true_iff. now rewrite some_contains, includes_lower_iff. }
  rewrite V. tauto.
Qed.

(** X9.  Text search: for every ASCII query, a record of the catalog is
    found whenever the query occurs, in either case of its letters, in its
    type, its full name, one of its aliases, one of its common devices,
    the name or the version of one of its protocol variants, or one of
    their features. *)
Theorem search_by_text (P : Platform) (query : string) (c : CableSpec) :
  is_ascii query = true ->
  In c (allCables P) ->
  text_hit (Js.toLowerCase query) c ->
  In c (fst (searchCables P query)).
Proof.
  intros _ Hin Hit. apply search_In. split; [exact Hin|].
  unfold matches. cbv zeta.
  now rewrite (proj2 (textMatch_iff _ _) Hit).
Qed.

Lemma search_by_text_witness :
  In usb4 (fst (searchCables two_cable_platform "TUNNEL")).
Proof.
  apply (search_by_text two_cable_platform "TUNNEL" usb4).
  - reflexivity.
  - right. now left.
  - right. right. right. right. right.
    eexists. split; [now left|]. right.
    exists "Tunneling". split; [now left|].
    exists EmptyString, "Tunnel", "ing". split; reflexivity.
Defined.

(** A text without a decimal digit. *)
Definition no_digit (s : string) : bool :=
  all_chars (fun c => negb (Js.is_digit c)) s.

Lemma class_digit (a : ascii) :
  Re.class_match true false [Re.Digit] a = Js.is_digit a.
Proof.
  unfold Re.class_match. cbn [existsb Re.item_match].
  now rewrite orb_false_r.
Qed.

(** A pattern that starts with a number does not match where no digit
    stands. *)
Lemma number_needs_digit (r : Re.regex) (s : string) :
  match s with
  | String a _ => Js.is_digit a = false
  | EmptyString => True
  end ->
  Re.match_at true (Re.Seq (Re.Group 1 number_re) r) s = None.
Proof.
  intro H. unfold Re.match_at, number_re, Re.Plus. cbn [Re.m].
  destruct s as [|a s]; [reflexivity|]. now rewrite class_digit, H.
Qed.

Lemma no_digit_no_number (r : Re.regex) (s : string) :
  no_digit s = true ->
  Re.str_match true (Re.Seq (Re.Group 1 number_re) r) s = None.
Proof.
  unfold no_digit. induction s as [|a s IH]; intro H.
  - cbn [Re.str_match]. now rewrite number_needs_digit.
  - cbn [all_chars] in H. apply andb_true_iff in H. destruct H as [Ha Hs].
    cbn [Re.str_match]. rewrite number_needs_digit.
    + now apply IH.
    + now apply negb_true_iff.
Qed.

(** The text fields the search reads are all ASCII. *)
Definition ascii_fields (c : CableSpec) : bool :=
  is_ascii (type c) && is_ascii (full_name c) &&
  forallb is_ascii (common_names c) &&
  forallb is_ascii (common_devices c) &&
  forallb is_ascii (Object_keys c) &&
  forallb (fun v => is_ascii (version v) && forallb is_ascii (features v))
          (Object_values c).

(** X10.  An ASCII query without a digit is a pure text search: no
    threshold is extracted from it, and a record with ASCII text fields is
    found exactly when it is in the catalog and the query occurs in one of
    those fields, in either case of its letters. *)
Theorem search_without_digit (P : Platform) (query : string) (c : CableSpec) :
  is_ascii query = true ->
  no_digit query = true ->
  targetRateMbps query = None /\
  targetPower query = None /\
  (ascii_fields c = true ->
   (In c (fst (searchCables P query)) <->
    In c (allCables P) /\ text_hit (Js.toLowerCase query) c)).
Proof.
  intros _ H.
  assert (R : targetRateMbps query = None).
  { unfold targetRateMbps, dataRate_re. now rewrite no_digit_no_number. }
  assert (W : targetPower query = None).
  { unfold targetPower, power_re. now rewrite no_digit_no_number. }
  split; [exact R|]. split; [exact W|]. intros _.
  rewrite search_In. unfold matches. cbv zeta. rewrite R, W.
  cbn [rateMatch powerMatchResult]. rewrite !orb_false_r.
  now rewrite textMatch_iff.
Qed.

Lemma search_without_digit_witness :
  In usb4 (fst (searchCables two_cable_platform "gbps")) <->
  In usb4 (allCables two_cable_platform) /\ text_hit (Js.toLowerCase "gbps") usb4.
Proof.
  apply (proj2 (proj2 (search_without_digit two_cable_platform "gbps" usb4
                         eq_refl eq_refl))).
  reflexivity.
Defined.

(** X11.  For every query from which a positive power threshold is
    extracted, the search includes every record of the catalog whose
    declared [power_max] is at least the threshold, whatever its text. *)
Theorem search_by_power (P : Platform) (query : string) (t p : Q) (c : CableSpec) :
  targetPower query = Some t -> (0 < t)%Q ->
  In c (allCables P) ->
  power_max (electrical c) = Some p -> (t <= p)%Q ->
  In c (fst (searchCables P query)).
Proof.
  intros Ht Hpos Hin Hp Hle. apply search_In. split; [exact Hin|].
  unfold matches. cbv zeta. rewrite Ht.
  assert (M : powerMatchResult (Some t) c = true).
  { apply powerMatchResult_iff; [exact Hpos | now exists p]. }
  rewrite M. now rewrite orb_true_r.
Qed.

Lemma search_by_power_witness :
  In charger_140 (fst (searchCables (one_cable_platform charger_140) "at least 65 w")).
Proof.
  apply (search_by_power (one_cable_platform charger_140) "at least 65 w"
           65%Q 140%Q charger_140).
  - reflexivity.
  - reflexivity.
  - now left.
  - reflexivity.
  - discriminate.
Defined.

(** X12.  Rate matching agrees with [getMaxDataRate]: for a positive
    threshold, a record matches by rate exactly when its maximum data rate
    is at least the threshold. *)
Theorem rateMatch_max (t : Q) (c : CableSpec) :
  (0 < t)%Q ->
  (rateMatch (Some t) c = true <-> (t <= getMaxDataRate c)%Q).
Proof.
  intro Hpos.
  assert (Hnz : ~ (t == 0)%Q).
  { intro E. rewrite E in Hpos. exact (Qlt_irrefl _ Hpos). }
  rewrite (rateMatch_iff t c Hnz).
  change (getMaxDataRate c) with (floor_max (map data_rate_mbps (Object_values c))).
  split.
  - intros (v & Hin & Hle). eapply Qle_trans; [exact Hle|].
    apply floor_max_upper. now apply in_map.
  - intro Hle.
    destruct (floor_max_attained (map data_rate_mbps (Object_values c))) as [E|E].
    + rewrite E in Hle. exfalso. exact (Qlt_not_le _ _ Hpos Hle).
    + apply in_map_iff in E. destruct E as (v & Ev & Hin).
      exists v. split; [exact Hin | now rewrite Ev].
Qed.

Lemma rateMatch_max_witness :
  rateMatch (Some 10000%Q) usb4 = true <-> (10000 <= getMaxDataRate usb4)%Q.
Proof. apply (rateMatch_max 10000%Q usb4). reflexivity. Defined.

(** X13.  Power matching agrees with the derived metrics: a record that
    matches a power threshold declares a power, [getMaxPower] and
    [getNormalizedPowerWatts] both return it, and it is at least the
    threshold. *)
Theorem powerMatch_normalized (t : Q) (c : CableSpec) :
  powerMatchResult (Some t) c = true ->
  exists p, getMaxPower c = Some p /\
            getNormalizedPowerWatts c = Some p /\
            (t <= p)%Q.
Proof.
  unfold powerMatchResult, getMaxPower, getNormalizedPowerWatts. cbv zeta.
  destruct (Num.truthy t); [|discriminate].
  destruct (power_max (electrical c)) as [p|]; [|discriminate].
  intro H. apply andb_true_iff in H. destruct H as [Hp Hle].
  exists p. rewrite Hp. split; [reflexivity|]. split; [reflexivity|].
  now apply geb_le.
Qed.

Lemma powerMatch_normalized_witness :
  exists p, getMaxPower charger_140 = Some p /\
            getNormalizedPowerWatts charger_140 = Some p /\
            (100 <= p)%Q.
Proof. apply (powerMatch_normalized 100%Q charger_140). reflexivity. Defined.

End SearchMore.

(* ================================================================= *)
(** ** Video capabilities *)

Section Video.

Import CableData.

Lemma set_has_In (x : string) (s : list string) : set_has x s = true <-> In x s.
Proof.
  unfold set_has. rewrite existsb_exists. split.
  - intros (y & Hin & E). apply String.eqb_eq in E. now subst.
  - intro H. exists x. split; [exact H | apply String.eqb_refl].
Qed.

Lemma set_add_In (s : list string) (x y : string) :
  In y (set_add s x) <-> In y s \/ y = x.
Proof.
  unfold set_add. destruct (set_has x s) eqn:E.
  - apply set_has_In in E. split; [now left | intros [H| ->]; assumption].
  - rewrite in_app_iff. cbn [In].
    split; [intros [H|[<-|[]]]; auto | intros [H| ->]; auto].
Qed.

Lemma set_add_NoDup (s : list string) (x : string) :
  NoDup s -> NoDup (set_add s x).
Proof.
  intro H. unfold set_add. destruct (set_has x s) eqn:E; [exact H|].
  apply NoDup_app; [exact H | repeat constructor; intros [] |].
  intros y Hy [<-|[]]. apply set_has_In in Hy. congruence.
Qed.

Lemma add_all_In (l s : list string) (y : string) :
  In y (fold_left set_add l s) <-> In y s \/ In y l.
Proof.
  revert s. induction l as [|x l IH]; intro s; cbn [fold_left In]; [tauto|].
  rewrite IH, set_add_In.
  split; [intros [[H| ->]|H]; auto | intros [H|[<-|H]]; auto].
Qed.

Lemma add_all_NoDup (l s : list string) :
  NoDup s -> NoDup (fold_left set_add l s).
Proof.
  revert s. induction l as [|x l IH]; intros s H; [exact H|].
  cbn [fold_left]. now apply IH, set_add_NoDup.
Qed.

(** The step of the loop over the features. *)
Definition add_feature (caps : list string) (feature : string) : list string :=
  if video_feature feature then set_add caps feature else caps.

Lemma add_features_In (l s : list string) (y : string) :
  In y (fold_left add_feature l s) <->
  In y s \/ (In y l /\ video_feature y = true).
Proof.
  revert s. induction l as [|x l IH]; intro s; cbn [fold_left In]; [tauto|].
  rewrite IH. unfold add_feature. destruct (video_feature x) eqn:E.
  - rewrite set_add_In. split.
    + intros [[H| ->]|[H V]]; auto.
    + intros [H|[[<-|H] V]]; auto.
  - split.
    + intros [H|[H V]]; auto.
    + intros [H|[[<-|H] V]]; auto. congruence.
Qed.

Lemma add_features_NoDup (l s : list string) :
  NoDup s -> NoDup (fold_left add_feature l s).
Proof.
  revert s. induction l as [|x l IH]; intros s H; [exact H|].
  cbn [fold_left]. apply IH. unfold add_feature.
  destruct (video_feature x); [now apply set_add_NoDup | exact H].
Qed.

(** What one variant contributes: an entry of its video standards, or a
    feature that names DisplayPort, HDMI, 4K or 8K. *)
Definition capability_of (v : ProtocolSpec) (x : string) : Prop :=
  (exists videos, video_support v = Some videos /\ In x videos) \/
  (In x (features v) /\
   (contains_ci x "displayport" \/ contains_ci x "hdmi" \/
    contains_ci x "4k" \/ contains_ci x "8k")).

Lemma video_feature_iff (x : string) :
  video_feature x = true <->
  contains_ci x "displayport" \/ contains_ci x "hdmi" \/
  contains_ci x "4k" \/ contains_ci x "8k".
Proof.
  unfold video_feature. rewrite !orb_true_iff, !includes_lower_iff. tauto.
Qed.

Lemma add_capabilities_In (s : list string) (v : ProtocolSpec) (y : string) :
  In y (add_capabilities s v) <-> In y s \/ capability_of v y.
Proof.
  unfold add_capabilities, capability_of. cbv zeta.
  change (fun caps feature =>
            if video_feature feature then set_add caps feature else caps)
    with add_feature.
  rewrite add_features_In, video_feature_iff.
  destruct (video_support v) as [videos|].
  - rewrite add_all_In. split.
    + intros [[H|H]|H]; auto. right. left. now exists videos.
    + intros [H|[(l & [= <-] & H)|H]]; auto.
  - split.
    + intros [H|H]; auto.
    + intros [H|[(l & [=] & _)|H]]; auto.
Qed.

Lemma add_capabilities_NoDup (s : list string) (v : ProtocolSpec) :
  NoDup s -> NoDup (add_capabilities s v).
Proof.
  intro H. unfold add_capabilities. cbv zeta.
  change (fun caps feature =>
            if video_feature feature then set_add caps feature else caps)
    with add_feature.
  apply add_features_NoDup.
  destruct (video_support v); [now apply add_all_NoDup | exact H].
Qed.

Lemma capabilities_fold (l : list ProtocolSpec) (s : list string) :
  (NoDup s -> NoDup (fold_left add_capabilities l s)) /\
  (forall y, In y (fold_left add_capabilities l s) <->
             In y s \/ exists v, In v l /\ capability_of v y).
Proof.
  revert s. induction l as [|v l IH]; intro s; cbn [fold_left].
  - split; [auto|]. intro y. split; [now left | intros [H|(v & [] & _)]; exact H].
  - destruct (IH (add_capabilities s v)) as [IH1 IH2]. split.
    + intro H. now apply IH1, add_capabilities_NoDup.
    + intro y. rewrite IH2, add_capabilities_In. split.
      * intros [[H|H]|(v' & Hin & H)]; auto.
        -- right. exists v. split; [now left | exact H].
        -- right. exists v'. split; [now right | exact H].
      * intros [H|(v' & [<-|Hin] & H)]; auto.
        right. now exists v'.
Qed.

(** X14.  For a record whose features are ASCII texts,
    [getVideoCapabilities] returns, without repetition, exactly the strings
    that some protocol variant lists as a video standard or has as a
    feature naming DisplayPort, HDMI, 4K or 8K in either case of the
    letters; [hasVideoSupport] holds exactly when there is such a
    string. *)
Theorem getVideoCapabilities_spec (c : CableSpec) :
  forallb (fun v => forallb is_ascii (features v)) (Object_values c) = true ->
  NoDup (getVideoCapabilities c) /\
  (forall x, In x (getVideoCapabilities c) <->
             exists v, In v (Object_values c) /\ capability_of v x) /\
  (hasVideoSupport c = true <->
   exists v x, In v (Object_values c) /\ capability_of v x).
Proof.
  intros _. unfold hasVideoSupport, getVideoCapabilities.
  destruct (capabilities_fold (Object_values c) []) as [N I].
  split; [apply N; constructor|].
  assert (I' : forall x, In x (fold_left add_capabilities (Object_values c) []) <->
                         exists v, In v (Object_values c) /\ capability_of v x).
  { intro x. rewrite I. cbn [In]. tauto. }
  split; [exact I'|].
  destruct (fold_left add_capabilities (Object_values c) []) as [|x l].
  - split; [discriminate|]. intros (v & x & H).
    destruct (proj2 (I' x) (ex_intro _ v H)).
  - split; [|reflexivity]. intros _.
    destruct (proj1 (I' x) (or_introl eq_refl)) as (v & H). now exists v, x.
Qed.

(** A variant that lists HDMI twice over: as a video standard and in two
    features. *)
Definition alt_mode : CableSpec :=
  Sample.cable "USB-C"
    [("Alt Mode",
      {| version := "1.0"; data_rate := "5 Gbps"; data_rate_mbps := 5000;
         power_delivery := None; video_support := Some ["HDMI"; "DisplayPort 1.4"];
         features := ["HDMI"; "4K at 60 Hz"; "Reversible plug"];
         cable_requirements := None; max_length := None |})] None.

Lemma getVideoCapabilities_spec_witness :
  getVideoCapabilities alt_mode = ["HDMI"; "DisplayPort 1.4"; "4K at 60 Hz"] /\
  hasVideoSupport alt_mode = true.
Proof.
  split; [reflexivity|].
  apply (proj2 (proj2 (getVideoCapabilities_spec alt_mode eq_refl))).
  eexists. exists "HDMI". split; [now left|]. left.
  eexists. split; [reflexivity | now left].
Defined.

End Video.

(* ================================================================= *)
(** ** Further properties of the card renderer *)

Section HighlightMore.

Import CableCard.

Variable toString : Q -> string.

Lemma highlightText_inr (text : string) (term : option string) :
  exists s, highlightText text term = inr s.
Proof.
  destruct term as [[|b t]|].
  - now exists (escapeHtml text).
  - exists (render (occurrences (String b t) (escapeHtml text))).
    now apply highlightText_pieces.
  - now exists (escapeHtml text).
Qed.

(** X16.  Highlighting never raises: whatever the term, with or without
    the syntax characters of a pattern, the pattern built from it is
    accepted, [highlightText] returns a text, and [createCableCard] returns
    a card.  Without a term, or with the empty term, the field is the
    escaped text. *)
Theorem highlightText_never_throws (text : string) (term : option string)
  (cable : ClientCable) (options : option CreateCardOptions) :
  (exists s, highlightText text term = inr s) /\
  (exists hType hName,
     createCableCard toString cable options = inr (card toString cable hType hName)) /\
  (term = None \/ term = Some EmptyString ->
   highlightText text term = inr (escapeHtml text)).
Proof.
  split; [apply highlightText_inr|]. split.
  - unfold createCableCard.
    set (t := match options with Some o => highlightTerm o | None => None end).
    destruct (highlightText_inr (type cable) t) as [hT ->].
    destruct (highlightText_inr (full_name cable) t) as [hN ->].
    now exists hT, hN.
  - intros [-> | ->]; reflexivity.
Qed.

Lemma lower_upper_char (c : ascii) :
  Js.lower_char (Js.upper_char c) = Js.lower_char c.
Proof. destruct c as [[] [] [] [] [] [] [] []]; reflexivity. Qed.

Lemma upper_lower_char (c : ascii) :
  Js.upper_char (Js.lower_char c) = Js.upper_char c.
Proof. destruct c as [[] [] [] [] [] [] [] []]; reflexivity. Qed.

(** Comparing under the [i] flag is comparing the lower-cased characters. *)
Lemma char_eq_lower (a b : ascii) :
  Re.char_eq true b a = Ascii.eqb (Js.lower_char a) (Js.lower_char b).
Proof.
  unfold Re.char_eq, Re.canon.
  destruct (Ascii.eqb_spec (Js.upper_char b) (Js.upper_char a)) as [E|E];
    destruct (Ascii.eqb_spec (Js.lower_char a) (Js.lower_char b)) as [F|F];
    try reflexivity; exfalso.
  - apply F. now rewrite <- (lower_upper_char a), <- (lower_upper_char b), E.
  - apply E. now rewrite <- (upper_lower_char a), <- (upper_lower_char b), F.
Qed.

Lemma starts_ci_lower (t s : string) :
  starts_ci t s = Js.startsWith (Js.toLowerCase s) (Js.toLowerCase t).
Proof.
  revert s. induction t as [|b t IH]; intro s; [now destruct s|].
  destruct s as [|a s]; [reflexivity|].
  cbn [starts_ci Js.toLowerCase Js.startsWith]. now rewrite IH, char_eq_lower.
Qed.

Lemma pieces_without_occurrence (term s : string) :
  Js.includes (Js.toLowerCase s) (Js.toLowerCase term) = false ->
  render (pieces term 0 s) = s.
Proof.
  induction s as [|c s IH]; [reflexivity|].
  cbn [Js.toLowerCase Js.includes]. intro H.
  apply orb_false_iff in H. destruct H as [H1 H2].
  cbn [pieces]. rewrite starts_ci_lower. cbn [Js.toLowerCase]. rewrite H1.
  cbn [render]. now rewrite IH.
Qed.

(** X17.  An ASCII term that does not occur in the escaped text, in
    either case of its letters, marks nothing: the field is the escaped
    text. *)
Theorem highlightText_without_occurrence (text term : string) :
  is_ascii term = true ->
  Js.includes (Js.toLowerCase (escapeHtml text)) (Js.toLowerCase term) = false ->
  highlightText text (Some term) = inr (escapeHtml text).
Proof.
  intros _ H.
  assert (Hne : term <> EmptyString).
  { intros ->. cbn [Js.toLowerCase] in H. now rewrite includes_empty in H. }
  rewrite (highlightText_pieces _ _ Hne). unfold occurrences.
  now rewrite pieces_without_occurrence.
Qed.

End HighlightMore.

Lemma highlightText_never_throws_witness :
  CableCard.highlightText "C++ (draft)" (Some EmptyString)
  = inr (CableCard.escapeHtml "C++ (draft)").
Proof.
  apply (proj2 (proj2 (highlightText_never_throws (fun _ => EmptyString)
                         "C++ (draft)" (Some EmptyString)
                         (Sample.card "USB-C" None [] EmptyString) None))).
  now right.
Defined.

Lemma highlightText_without_occurrence_witness :
  CableCard.highlightText "HDMI <2.1>" (Some "usb")
  = inr (CableCard.escapeHtml "HDMI <2.1>").
Proof.
  apply (highlightText_without_occurrence "HDMI <2.1>" "usb"); reflexivity.
Defined.

(* ================================================================= *)
(** ** The case of a query *)

Section QueryCase.

Import CableData.

Definition lower_caps (cs : Re.caps) : Re.caps :=
  map (fun p => (fst p, Js.toLowerCase (snd p))) cs.

Definition lower_state (x : string * Re.caps) : string * Re.caps :=
  (Js.toLowerCase (fst x), lower_caps (snd x)).

Definition lower_result (x : Re.result) : Re.result :=
  Re.mkResult (Js.toLowerCase (Re.matched x)) (lower_caps (Re.groups x)) (Js.toLowerCase (Re.rest x)).

Lemma lower_length (s : string) : String.length (Js.toLowerCase s) = String.length s.
Proof. induction s; simpl; congruence. Qed.

Lemma lower_idem (s : string) : Js.toLowerCase (Js.toLowerCase s) = Js.toLowerCase s.
Proof. induction s as [|c s IH]; simpl; [reflexivity|]. now rewrite lower_char_idem, IH. Qed.

Lemma substring_lower (n k : nat) (s : string) :
  substring n k (Js.toLowerCase s) = Js.toLowerCase (substring n k s).
Proof.
  revert n k. induction s as [|c s IH]; intros [|n] [|k]; simpl;
    try reflexivity; now rewrite IH.
Qed.

Lemma consumed_lower (s s' : string) :
  Re.consumed (Js.toLowerCase s) (Js.toLowerCase s') = Js.toLowerCase (Re.consumed s s').
Proof. unfold Re.consumed. now rewrite !lower_length, substring_lower. Qed.

Lemma char_case (a : ascii) : Js.lower_char a = a \/ Js.upper_char a = a.
Proof. destruct a as [[] [] [] [] [] [] [] []]; (now left) || (now right). Qed.

Lemma is_digit_lower (a : ascii) : Js.is_digit (Js.lower_char a) = Js.is_digit a.
Proof. destruct a as [[] [] [] [] [] [] [] []]; reflexivity. Qed.

Lemma is_space_lower (a : ascii) : Js.is_space (Js.lower_char a) = Js.is_space a.
Proof. destruct a as [[] [] [] [] [] [] [] []]; reflexivity. Qed.

Lemma char_eq_lower_r (c a : ascii) :
  Re.char_eq true c (Js.lower_char a) = Re.char_eq true c a.
Proof. unfold Re.char_eq, Re.canon. now rewrite upper_lower_char. Qed.

Lemma item_match_lower (i : Re.item) (a : ascii) :
  Re.item_match true i (Js.lower_char a) = Re.item_match true i a.
Proof.
  destruct i as [c|lo hi| |]; cbn [Re.item_match].
  - apply char_eq_lower_r.
  - unfold Re.in_range_ic. cbv zeta.
    rewrite lower_char_idem, upper_lower_char.
    destruct (char_case a) as [E|E]; rewrite E.
    + reflexivity.
    + now destruct (Js.in_range (Js.code lo) (Js.code hi) (Js.lower_char a)),
                   (Js.in_range (Js.code lo) (Js.code hi) a).
  - apply is_digit_lower.
  - apply is_space_lower.
Qed.

Lemma class_match_lower (neg : bool) (items : list Re.item) (a : ascii) :
  Re.class_match true neg items (Js.lower_char a) = Re.class_match true neg items a.
Proof.
  unfold Re.class_match. f_equal.
  induction items as [|i items IH]; [reflexivity|].
  cbn [existsb]. now rewrite item_match_lower, IH.
Qed.

(** Under the [i] flag the matcher does on the lower-cased input what it
    does on the input, with every text it hands on lower-cased. *)
Lemma m_lower (r : Re.regex) :
  forall (s : string) (cs : Re.caps) (k k' : Re.cont),
    (forall s' cs', k' (Js.toLowerCase s') (lower_caps cs') = option_map lower_state (k s' cs')) ->
    Re.m true r (Js.toLowerCase s) (lower_caps cs) k' = option_map lower_state (Re.m true r s cs k).
Proof.
  induction r as [|c|neg items|r1 IH1 r2 IH2|r1 IH1 r2 IH2|r1 IH1|n r1 IH1];
    intros s cs k k' Hk; cbn [Re.m].
  - apply Hk.
  - destruct s as [|a s]; [reflexivity|]. cbn [Js.toLowerCase].
    rewrite char_eq_lower_r. destruct (Re.char_eq true c a); [apply Hk | reflexivity].
  - destruct s as [|a s]; [reflexivity|]. cbn [Js.toLowerCase].
    rewrite class_match_lower.
    destruct (Re.class_match true neg items a); [apply Hk | reflexivity].
  - apply IH1. intros s' cs'. now apply IH2.
  - rewrite (IH1 s cs k k' Hk).
    destruct (Re.m true r1 s cs k); [reflexivity | now apply IH2].
  - rewrite lower_length. generalize (String.length s) as fuel.
    intro fuel. revert s cs. induction fuel as [|fuel IHf]; intros s cs.
    + apply Hk.
    + match goal with
      | |- match Re.m true r1 (Js.toLowerCase s) (lower_caps cs) ?K' with _ => _ end = _ =>
          match goal with
          | |- _ = option_map _ (match Re.m true r1 s cs ?K with _ => _ end) =>
              assert (HK : forall s' cs',
                         K' (Js.toLowerCase s') (lower_caps cs')
                         = option_map lower_state (K s' cs'));
              [ | rewrite (IH1 s cs K K' HK) ]
          end
      end.
      * intros s' cs'. cbv beta. rewrite !lower_length.
        destruct (String.length s' <? String.length s)%nat;
          [apply IHf | reflexivity].
      * match goal with
        | |- context [Re.m true r1 s cs ?K] => destruct (Re.m true r1 s cs K)
        end; [reflexivity | apply Hk].
  - apply IH1. intros s' cs'. rewrite consumed_lower.
    exact (Hk s' ((n, Re.consumed s s') :: cs')).
Qed.

Lemma match_at_lower (r : Re.regex) (s : string) :
  Re.match_at true r (Js.toLowerCase s) = option_map lower_result (Re.match_at true r s).
Proof.
  unfold Re.match_at.
  pose proof (m_lower r s [] (fun s' cs' => Some (s', cs'))
                (fun s' cs' => Some (s', cs')) (fun _ _ => eq_refl)) as H.
  cbn [lower_caps map] in H. rewrite H.
  destruct (Re.m true r s [] (fun s' cs' => Some (s', cs'))) as [[s' cs']|];
    [|reflexivity].
  cbn [option_map lower_state fst snd]. unfold lower_result. cbn [Re.matched Re.groups Re.rest].
  now rewrite consumed_lower.
Qed.

Lemma str_match_lower (r : Re.regex) (s : string) :
  Re.str_match true r (Js.toLowerCase s)
  = option_map lower_result (Re.str_match true r s).
Proof.
  induction s as [|a s IH].
  - pose proof (match_at_lower r EmptyString) as H.
    cbn [Js.toLowerCase] in H. cbn [Js.toLowerCase Re.str_match]. rewrite H at 1.
    now destruct (Re.match_at true r EmptyString).
  - pose proof (match_at_lower r (String a s)) as H.
    cbn [Js.toLowerCase] in H. cbn [Js.toLowerCase Re.str_match]. rewrite H at 1.
    destruct (Re.match_at true r (String a s)); [reflexivity|].
    cbn [option_map]. exact IH.
Qed.

Lemma at_group_lower (n : nat) (x : Re.result) :
  at_group n (lower_result x) = Js.toLowerCase (at_group n x).
Proof.
  unfold at_group, Re.group, lower_result. cbn [Re.groups].
  induction (Re.groups x) as [|[k v] cs IH]; [reflexivity|].
  cbn [lower_caps map fst snd Re.cap]. destruct (k =? n)%nat; [reflexivity | exact IH].
Qed.

Lemma digit_lower (c : ascii) : Js.is_digit c = true -> Js.lower_char c = c.
Proof.
  destruct c as [[] [] [] [] [] [] [] []]; intro H;
    solve [reflexivity | discriminate H].
Qed.

Lemma digits_value_lower (s : string) (acc : Z) :
  Num.digits_value acc (Js.toLowerCase s)
  = (fst (Num.digits_value acc s), Js.toLowerCase (snd (Num.digits_value acc s))).
Proof.
  revert acc. induction s as [|c s IH]; intro acc; [reflexivity|].
  cbn [Js.toLowerCase Num.digits_value]. rewrite is_digit_lower.
  destruct (Js.is_digit c) eqn:E; [|reflexivity].
  now rewrite (digit_lower c E), IH.
Qed.

Lemma parseFloat_unfold (s : string) :
  Num.parseFloat s =
  let '(ip, r) := Num.digits_value 0 s in
  match r with
  | String c f =>
      if Ascii.eqb c "."
      then let '(fp, r') := Num.digits_value 0 f in
           let k := (String.length f - String.length r')%nat in
           (inject_Z ip + inject_Z fp / inject_Z (10 ^ Z.of_nat k))%Q
      else inject_Z ip
  | EmptyString => inject_Z ip
  end.
Proof.
  unfold Num.parseFloat. destruct (Num.digits_value 0 s) as [ip r].
  destruct r as [|c f]; [reflexivity|].
  destruct c as [[] [] [] [] [] [] [] []]; reflexivity.
Qed.

Lemma dot_lower (c : ascii) :
  Ascii.eqb (Js.lower_char c) "." = Ascii.eqb c ".".
Proof. destruct c as [[] [] [] [] [] [] [] []]; reflexivity. Qed.

Lemma parseFloat_lower (s : string) :
  Num.parseFloat (Js.toLowerCase s) = Num.parseFloat s.
Proof.
  rewrite !parseFloat_unfold, digits_value_lower.
  destruct (Num.digits_value 0 s) as [ip r]. cbn [fst snd].
  destruct r as [|c f]; [reflexivity|]. cbn [Js.toLowerCase].
  rewrite dot_lower. destruct (Ascii.eqb c "."); [|reflexivity].
  rewrite digits_value_lower.
  destruct (Num.digits_value 0 f) as [fp r']. cbn [fst snd].
  now rewrite !lower_length.
Qed.

Lemma targetRateMbps_lower (query : string) :
  targetRateMbps (Js.toLowerCase query) = targetRateMbps query.
Proof.
  unfold targetRateMbps. rewrite str_match_lower.
  destruct (Re.str_match true dataRate_re query) as [x|]; [|reflexivity].
  cbn [option_map]. now rewrite !at_group_lower, parseFloat_lower, lower_idem.
Qed.

Lemma targetPower_lower (query : string) :
  targetPower (Js.toLowerCase query) = targetPower query.
Proof.
  unfold targetPower. rewrite str_match_lower.
  destruct (Re.str_match true power_re query) as [x|]; [|reflexivity].
  cbn [option_map]. now rewrite at_group_lower, parseFloat_lower.
Qed.

Lemma matches_lower (query : string) (c : CableSpec) :
  matches (Js.toLowerCase query) c = matches query c.
Proof.
  unfold matches. cbv zeta.
  now rewrite lower_idem, targetRateMbps_lower, targetPower_lower.
Qed.

Lemma filter_same {A} (f g : A -> bool) (l : list A) :
  (forall x, f x = g x) -> filter f l = filter g l.
Proof.
  intro H. induction l as [|x l IH]; [reflexivity|].
  cbn [filter]. now rewrite H, IH.
Qed.

(** X18.  The search does not depend on the case of the query: two
    queries that differ only in the case of their letters extract the same
    thresholds and find the same records in the same order. *)
Theorem searchCables_query_case (P : Platform) (q q' : string) :
  Js.toLowerCase q = Js.toLowerCase q' ->
  targetRateMbps q = targetRateMbps q' /\
  targetPower q = targetPower q' /\
  searchCables P q = searchCables P q'.
Proof.
  intro H.
  split; [now rewrite <- (targetRateMbps_lower q), H, targetRateMbps_lower|].
  split; [now rewrite <- (targetPower_lower q), H, targetPower_lower|].
  unfold searchCables. destruct (getAllCategories P) as [cats log].
  f_equal. apply filter_same. intro c.
  now rewrite <- (matches_lower q), H, matches_lower.
Qed.

End QueryCase.

Lemma searchCables_query_case_witness :
  CableData.searchCables two_cable_platform "40 GBPS"
  = CableData.searchCables two_cable_platform "40 gbps".
Proof.
  apply (proj2 (proj2 (searchCables_query_case two_cable_platform
                         "40 GBPS" "40 gbps" eq_refl))).
Defined.

(* ================================================================= *)
(** ** The order of the protocol variants *)

Section VariantOrder.

Import CableData.

(** The record [c] with other entries in [protocols]. *)
Definition with_protocols (c : CableSpec) (ps : list (string * ProtocolSpec))
  : CableSpec :=
  {| type := type c; full_name := full_name c;
     standard_body := standard_body c; common_names := common_names c;
     protocols := ps;
     connector := connector c; electrical := electrical c;
     compatibility := compatibility c; common_devices := common_devices c;
     confusion_points := confusion_points c; buying_guide := buying_guide c;
     notes := notes c; sources := sources c; last_updated := last_updated c |}.

Lemma floor_max_perm_le (l l' : list Q) :
  Permutation l l' -> (floor_max l <= floor_max l')%Q.
Proof.
  intro H. destruct (floor_max_attained l) as [E|E].
  - rewrite E. apply floor_max_nonneg.
  - apply floor_max_upper. eapply Permutation_in; eassumption.
Qed.

Lemma existsb_perm {A} (f : A -> bool) (l l' : list A) :
  Permutation l l' -> existsb f l = existsb f l'.
Proof.
  induction 1 as [|x l l' _ IH|x y l|l l' l'' _ IH1 _ IH2]; cbn [existsb].
  - reflexivity.
  - now rewrite IH.
  - now destruct (f x), (f y).
  - congruence.
Qed.

Lemma first_wattage_integer (v : ProtocolSpec) (w : Q) :
  first_wattage v = Some w -> exists z, w = inject_Z z.
Proof.
  unfold first_wattage, Num.parseInt.
  destruct (power_delivery v) as [pd|]; [|discriminate].
  destruct (Re.str_match true watt_re pd) as [x|]; [|discriminate].
  intros [= <-]. eexists. reflexivity.
Qed.

Lemma parsed_power_perm (c c' : CableSpec) :
  Permutation (Object_values c) (Object_values c') ->
  parsed_power c = parsed_power c'.
Proof.
  intro H. assert (H' := Permutation_sym H).
  destruct (parsed_power c) as [m|] eqn:E; destruct (parsed_power c') as [m'|] eqn:E'.
  - destruct (parsed_power_some _ _ E) as (_ & (v & Hv & Hw) & Hup).
    destruct (parsed_power_some _ _ E') as (_ & (v' & Hv' & Hw') & Hup').
    assert (L1 : (m <= m')%Q).
    { eapply Hup'; [eapply Permutation_in; eassumption | exact Hw]. }
    assert (L2 : (m' <= m)%Q).
    { eapply Hup; [eapply Permutation_in; eassumption | exact Hw']. }
    destruct (first_wattage_integer _ _ Hw) as [z ->].
    destruct (first_wattage_integer _ _ Hw') as [z' ->].
    f_equal. f_equal. apply inject_Z_injective. now apply Qle_antisym.
  - exfalso. destruct (parsed_power_some _ _ E) as (Hpos & (v & Hv & Hw) & _).
    apply (Qlt_not_le _ _ Hpos).
    eapply (proj1 (parsed_power_none c') E'); [|exact Hw].
    eapply Permutation_in; eassumption.
  - exfalso. destruct (parsed_power_some _ _ E') as (Hpos & (v & Hv & Hw) & _).
    apply (Qlt_not_le _ _ Hpos).
    eapply (proj1 (parsed_power_none c) E); [|exact Hw].
    eapply Permutation_in; eassumption.
  - reflexivity.
Qed.

Lemma hasVideoSupport_perm (c c' : CableSpec) :
  Permutation (Object_values c) (Object_values c') ->
  hasVideoSupport c = hasVideoSupport c'.
Proof.
  intro H. assert (H' := Permutation_sym H).
  unfold hasVideoSupport, getVideoCapabilities.
  destruct (capabilities_fold (Object_values c) []) as [_ I].
  destruct (capabilities_fold (Object_values c') []) as [_ I'].
  destruct (fold_left add_capabilities (Object_values c) []) as [|x l];
    destruct (fold_left add_capabilities (Object_values c') []) as [|x' l'];
    try reflexivity; exfalso.
  - destruct (proj1 (I' x') (or_introl eq_refl)) as [[]|(v & Hv & Hc)].
    destruct (proj2 (I x')) as [].
    right. exists v. split; [eapply Permutation_in; eassumption | exact Hc].
  - destruct (proj1 (I x) (or_introl eq_refl)) as [[]|(v & Hv & Hc)].
    destruct (proj2 (I' x)) as [].
    right. exists v. split; [eapply Permutation_in; eassumption | exact Hc].
Qed.

(** X19.  The derived metrics and the search do not depend on the order
    in which the protocol variants of a record are enumerated: listing the
    same variants in another order gives an equal maximum data rate, the
    same normalized power, the same answer of [hasVideoSupport], and the
    same outcome of the search filter for every query. *)
Theorem variant_order_irrelevant (c : CableSpec) (ps : list (string * ProtocolSpec)) :
  Permutation (protocols c) ps ->
  (getMaxDataRate (with_protocols c ps) == getMaxDataRate c)%Q /\
  getNormalizedPowerWatts (with_protocols c ps) = getNormalizedPowerWatts c /\
  hasVideoSupport (with_protocols c ps) = hasVideoSupport c /\
  (forall query, matches query (with_protocols c ps) = matches query c).
Proof.
  intro H.
  assert (HV : Permutation (Object_values (with_protocols c ps)) (Object_values c)).
  { unfold Object_values. cbn [protocols with_protocols].
    apply Permutation_map, Permutation_sym, H. }
  assert (HK : Permutation (Object_keys (with_protocols c ps)) (Object_keys c)).
  { unfold Object_keys. cbn [protocols with_protocols].
    apply Permutation_map, Permutation_sym, H. }
  split; [|split; [|split]].
  - change (floor_max (map data_rate_mbps (Object_values (with_protocols c ps)))
            == floor_max (map data_rate_mbps (Object_values c)))%Q.
    apply Qle_antisym; apply floor_max_perm_le, Permutation_map;
      [exact HV | apply Permutation_sym, HV].
  - change (match power_max (electrical c) with
            | Some p => if Num.truthy p then Some p
                        else parsed_power (with_protocols c ps)
            | None => parsed_power (with_protocols c ps)
            end
            = match power_max (electrical c) with
              | Some p => if Num.truthy p then Some p else parsed_power c
              | None => parsed_power c
              end).
    now rewrite (parsed_power_perm _ _ HV).
  - now apply hasVideoSupport_perm.
  - intro query. unfold matches, textMatch, rateMatch, Js.some. cbv zeta.
    rewrite (existsb_perm _ _ _ HK).
    rewrite (existsb_perm (fun spec => _ || _) _ _ HV).
    destruct (targetRateMbps query) as [t|]; [|reflexivity].
    now rewrite (existsb_perm (fun proto => Num.geb (data_rate_mbps proto) t) _ _ HV).
Qed.

(** Two variants, one stating 60W and one 100W. *)
Definition pd_60 : ProtocolSpec :=
  Sample.protocol "2.0" 480 (Some "60W") ["Charging"].

Definition pd_100 : ProtocolSpec :=
  Sample.protocol "3.0" 10000 (Some "100W") ["HDMI Alt Mode"].

Definition two_variants : CableSpec :=
  Sample.cable "USB-C" [("PD 2.0", pd_60); ("PD 3.0", pd_100)] None.

Lemma variant_order_irrelevant_witness :
  getNormalizedPowerWatts
    (with_protocols two_variants [("PD 3.0", pd_100); ("PD 2.0", pd_60)])
  = getNormalizedPowerWatts two_variants.
Proof.
  apply (proj1 (proj2 (variant_order_irrelevant two_variants
                         [("PD 3.0", pd_100); ("PD 2.0", pd_60)]
                         (perm_swap _ _ _)))).
Defined.

End VariantOrder.

(* ================================================================= *)
(** ** The two patterns read as scans *)

Section Scans.

Import CableData.

(** The longest prefix of characters that satisfy [f], and what follows. *)
Fixpoint take_while (f : ascii -> bool) (s : string) : string :=
  match s with
  | String c r => if f c then String c (take_while f r) else EmptyString
  | EmptyString => EmptyString
  end.

Fixpoint skip_while (f : ascii -> bool) (s : string) : string :=
  match s with
  | String c r => if f c then skip_while f r else s
  | EmptyString => EmptyString
  end.

Lemma take_skip_while (f : ascii -> bool) (s : string) :
  take_while f s ++ skip_while f s = s.
Proof.
  induction s as [|c s IH]; [reflexivity|]. cbn [take_while skip_while].
  destruct (f c); [cbn [append]; now rewrite IH | reflexivity].
Qed.

Lemma skip_while_length (f : ascii -> bool) (s : string) :
  (String.length (skip_while f s) <= String.length s)%nat.
Proof.
  induction s as [|c s IH]; [apply Nat.le_refl|]. cbn [skip_while].
  destruct (f c); cbn [String.length]; lia.
Qed.

(** A greedy repetition of a class, before a continuation that rejects
    every input that starts with a character of the class, takes the whole
    run of such characters: giving back one of them cannot help. *)
Lemma star_class_skip (neg : bool) (items : list Re.item) (k : Re.cont) :
  (forall a s' cs', Re.class_match true neg items a = true ->
                    k (String a s') cs' = None) ->
  forall s cs,
    Re.m true (Re.Star (Re.Class neg items)) s cs k
    = k (skip_while (Re.class_match true neg items) s) cs.
Proof.
  intros Hk s cs. cbn [Re.m].
  remember (String.length s) as fuel eqn:E.
  assert (Hf : (String.length s <= fuel)%nat) by lia. clear E.
  revert s cs Hf. induction fuel as [|fuel IH]; intros s cs Hf.
  - destruct s; [reflexivity | cbn [String.length] in Hf; lia].
  - destruct s as [|a s]; [reflexivity|].
    cbn [skip_while].
    destruct (Re.class_match true neg items a) eqn:C.
    + replace (String.length s <? String.length (String a s))%nat with true
        by (symmetry; apply Nat.ltb_lt; cbn [String.length]; lia).
      rewrite IH by (cbn [String.length] in Hf; lia).
      destruct (k (skip_while (Re.class_match true neg items) s) cs) eqn:K;
        [reflexivity|].
      now apply Hk.
    + reflexivity.
Qed.

Lemma skip_while_ext (f g : ascii -> bool) (s : string) :
  (forall c, f c = g c) -> skip_while f s = skip_while g s.
Proof.
  intro H. induction s as [|c s IH]; [reflexivity|].
  cbn [skip_while]. now rewrite H, IH.
Qed.

Lemma class_space (a : ascii) :
  Re.class_match true false [Re.Space] a = Js.is_space a.
Proof.
  unfold Re.class_match. cbn [existsb Re.item_match].
  now rewrite orb_false_r.
Qed.

(** The letter W in either case. *)
Definition watt_letter (c : ascii) : bool :=
  Ascii.eqb c "W" || Ascii.eqb c "w".

Lemma char_eq_W (a : ascii) : Re.char_eq true "W" a = watt_letter a.
Proof. destruct a as [[] [] [] [] [] [] [] []]; reflexivity. Qed.

Lemma space_not_W (a : ascii) : Js.is_space a = true -> watt_letter a = false.
Proof.
  destruct a as [[] [] [] [] [] [] [] []]; intro H;
    solve [reflexivity | discriminate H].
Qed.

Lemma digit_not_space_W (a : ascii) :
  Js.is_digit a = true -> Js.is_space a = false /\ watt_letter a = false.
Proof.
  destruct a as [[] [] [] [] [] [] [] []]; intro H;
    solve [split; reflexivity | discriminate H].
Qed.

Lemma m_class_cons (neg : bool) (items : list Re.item) (a : ascii) (s : string)
  (cs : Re.caps) (k : Re.cont) :
  Re.m true (Re.Class neg items) (String a s) cs k
  = if Re.class_match true neg items a then k s cs else None.
Proof. reflexivity. Qed.

(** After the number of [wattMatch]: white space, then the letter. *)
Lemma watt_tail (s : string) (cs : Re.caps) (k : Re.cont) :
  Re.m true (Re.Seq (Re.Star (Re.Class false [Re.Space])) (Re.Char "W")) s cs k
  = match skip_while Js.is_space s with
    | String w r => if watt_letter w then k r cs else None
    | EmptyString => None
    end.
Proof.
  change (Re.m true (Re.Seq (Re.Star (Re.Class false [Re.Space])) (Re.Char "W")) s cs k)
    with (Re.m true (Re.Star (Re.Class false [Re.Space])) s cs
            (fun s' cs' => Re.m true (Re.Char "W") s' cs' k)).
  rewrite star_class_skip.
  - rewrite (skip_while_ext _ Js.is_space) by apply class_space.
    cbn [Re.m]. destruct (skip_while Js.is_space s) as [|w r]; [reflexivity|].
    now rewrite char_eq_W.
  - intros a s' cs' H. rewrite class_space in H. cbn [Re.m].
    now rewrite char_eq_W, (space_not_W a H).
Qed.

(** Following the claim: at the head of [s] stands an integer, then
    optional white space, then the letter W in either case; the result is
    the text of the integer. *)
Definition wattage_here (s : string) : option string :=
  match take_while Js.is_digit s with
  | EmptyString => None
  | ds =>
      match skip_while Js.is_space (skip_while Js.is_digit s) with
      | String w _ => if watt_letter w then Some ds else None
      | EmptyString => None
      end
  end.

(** The first place of [s], from the left, where such a wattage stands. *)
Fixpoint first_wattage_text (s : string) : option string :=
  match wattage_here s with
  | Some ds => Some ds
  | None =>
      match s with
      | String _ r => first_wattage_text r
      | EmptyString => None
      end
  end.

Definition group1 (x : Re.result) : string := at_group 1 x.

Lemma watt_match_at (s : string) :
  option_map group1 (Re.match_at true watt_re s) = wattage_here s.
Proof.
  unfold Re.match_at, watt_re, Re.Plus, wattage_here.
  set (k0 := fun (s' : string) (cs' : Re.caps) => Some (s', cs')).
  change (Re.m true
            (Re.Seq (Re.Group 1 (Re.Seq (Re.Class false [Re.Digit])
                                        (Re.Star (Re.Class false [Re.Digit]))))
                    (Re.Seq (Re.Star (Re.Class false [Re.Space])) (Re.Char "W")))
            s [] k0)
    with (Re.m true (Re.Class false [Re.Digit]) s []
            (fun s1 cs1 =>
               Re.m true (Re.Star (Re.Class false [Re.Digit])) s1 cs1
                 (fun s' cs' =>
                    Re.m true (Re.Seq (Re.Star (Re.Class false [Re.Space])) (Re.Char "W"))
                      s' ((1%nat, Re.consumed s s') :: cs') k0))).
  destruct s as [|a s0]; [reflexivity|].
  rewrite m_class_cons, class_digit. cbn [take_while skip_while].
  destruct (Js.is_digit a) eqn:D; [|reflexivity].
  rewrite star_class_skip.
  - rewrite (skip_while_ext _ Js.is_digit) by apply class_digit.
    rewrite watt_tail.
    destruct (skip_while Js.is_space (skip_while Js.is_digit s0)) as [|w r];
      [reflexivity|].
    destruct (watt_letter w); [|reflexivity].
    unfold k0. cbn [option_map]. unfold group1, at_group, Re.group.
    cbn [Re.groups Re.cap Nat.eqb]. f_equal.
    rewrite <- (take_skip_while Js.is_digit s0) at 1.
    exact (consumed_app (String a (take_while Js.is_digit s0)) _).
  - intros a' s' cs' H. rewrite class_digit in H. rewrite watt_tail.
    destruct (digit_not_space_W a' H) as [Hs Hw].
    cbn [skip_while]. now rewrite Hs, Hw.
Qed.

Lemma watt_str_match (s : string) :
  option_map group1 (Re.str_match true watt_re s) = first_wattage_text s.
Proof.
  induction s as [|a s IH]; cbn [Re.str_match first_wattage_text].
  - rewrite <- watt_match_at.
    now destruct (Re.match_at true watt_re EmptyString).
  - rewrite <- watt_match_at.
    destruct (Re.match_at true watt_re (String a s)); [reflexivity | exact IH].
Qed.

(** No run of digits in [s] is longer than [limit]; [run] counts the
    digits of the run at hand. *)
Fixpoint short_runs (limit run : nat) (s : string) : bool :=
  match s with
  | EmptyString => true
  | String c r =>
      if Js.is_digit c
      then (run <? limit)%nat && short_runs limit (S run) r
      else short_runs limit 0 r
  end.

(** A power-delivery text on which the model reads what the code reads:
    ASCII, and every integer in it has at most 15 digits, so that
    [parseInt] is exact. *)
Definition plain_power_text (pd : string) : bool :=
  is_ascii pd && short_runs 15 0 pd.

Definition plain_power_texts (c : CableSpec) : bool :=
  forallb (fun v => match power_delivery v with
                    | Some pd => plain_power_text pd
                    | None => true
                    end)
          (Object_values c).

(** The integer a text of digits denotes. *)
Definition decimal_value (ds : string) : Z := fst (Num.digits_value 0 ds).

(** The wattage a variant states: the integer of the first place of its
    power-delivery text where an integer is followed, after optional white
    space, by the letter W in either case. *)
Definition stated_wattage (v : ProtocolSpec) : option Q :=
  match power_delivery v with
  | Some pd =>
      option_map (fun ds => inject_Z (decimal_value ds)) (first_wattage_text pd)
  | None => None
  end.

(** What the pattern of the code extracts is the stated wattage. *)
Lemma first_wattage_stated (v : ProtocolSpec) : first_wattage v = stated_wattage v.
Proof.
  unfold first_wattage, stated_wattage.
  destruct (power_delivery v) as [pd|]; [|reflexivity].
  rewrite <- watt_str_match.
  now destruct (Re.str_match true watt_re pd).
Qed.

(** C2 (as amended).  A declared [power_max] other than 0 is returned as it
    is, whatever the protocol texts say.  When the field is absent or 0,
    and the power-delivery texts are ASCII with integers of at most 15
    digits, the result is the largest wattage stated by the variants (per
    text: the integer of the first place where an integer is followed,
    after optional white space, by W or w), provided it is positive; it is
    absent exactly when no text states a positive wattage.  A wattage of 0
    is never returned. *)
Theorem getNormalizedPowerWatts_spec (c : CableSpec) :
  (forall p, power_max (electrical c) = Some p -> ~ (p == 0)%Q ->
             getNormalizedPowerWatts c = Some p) /\
  (plain_power_texts c = true ->
   power_max (electrical c) = None \/
   (exists p, power_max (electrical c) = Some p /\ (p == 0)%Q) ->
   (forall m, getNormalizedPowerWatts c = Some m ->
      (0 < m)%Q /\
      (exists v, In v (Object_values c) /\ stated_wattage v = Some m) /\
      (forall v w, In v (Object_values c) -> stated_wattage v = Some w -> (w <= m)%Q)) /\
   (getNormalizedPowerWatts c = None <->
    forall v w, In v (Object_values c) -> stated_wattage v = Some w -> (w <= 0)%Q)).
Proof.
  assert (E : getNormalizedPowerWatts c =
              match power_max (electrical c) with
              | Some p => if Num.truthy p then Some p else parsed_power c
              | None => parsed_power c
              end) by reflexivity.
  split.
  - intros p Hp Hnz. rewrite E, Hp.
    now rewrite (proj2 (truthy_iff p) Hnz).
  - intros _ H.
    assert (E' : getNormalizedPowerWatts c = parsed_power c).
    { rewrite E. destruct H as [->|(p & -> & Hz)]; [reflexivity|].
      now rewrite (proj2 (truthy_false_iff p) Hz). }
    rewrite E'. split.
    + intros m Hm. destruct (parsed_power_some c m Hm) as (H1 & (v & Hv & Hw) & H3).
      split; [exact H1|]. split.
      * exists v. split; [exact Hv | now rewrite <- first_wattage_stated].
      * intros v' w Hv' Hw'. apply (H3 v' w Hv').
        now rewrite first_wattage_stated.
    + rewrite parsed_power_none. split; intros H0 v w Hv Hw;
        apply (H0 v w Hv); [now rewrite first_wattage_stated
                           | now rewrite <- first_wattage_stated].
Qed.

(** Declared as 0 W, with a protocol text that says 100W. *)
Definition zero_declared : CableSpec :=
  Sample.cable "USB-C"
    [("USB PD", Sample.protocol "3.0" 480 (Some "Up to 100W") [])] (Some 0%Q).

(** Nothing declared, and a protocol text that says 0W. *)
Definition zero_in_text : CableSpec :=
  Sample.cable "RCA"
    [("Analog", Sample.protocol "1" 0 (Some "0W (signal only)") [])] None.

(** A text whose first wattage, written with a blank, is not its largest. *)
Definition pd_15_100 : ProtocolSpec :=
  Sample.protocol "2.0" 480 (Some "15 w default, 100W with e-marker") [].

(** Declared as 60 W, with that text. *)
Definition declared_60 : CableSpec :=
  Sample.cable "USB-C" [("USB PD", pd_15_100)] (Some 60%Q).

(** Nothing declared, with that text. *)
Definition undeclared_15_100 : CableSpec :=
  Sample.cable "USB-C" [("USB PD", pd_15_100)] None.

Lemma getNormalizedPowerWatts_spec_witness :
  getNormalizedPowerWatts declared_60 = Some 60%Q /\
  (getNormalizedPowerWatts zero_in_text = None <->
   forall v w, In v (Object_values zero_in_text) ->
               stated_wattage v = Some w -> (w <= 0)%Q).
Proof.
  split.
  - apply (proj1 (getNormalizedPowerWatts_spec declared_60)); [reflexivity|].
    discriminate.
  - apply (proj2 (getNormalizedPowerWatts_spec zero_in_text)); [reflexivity|].
    now left.
Defined.

(** C2 (as stated) fails: a declared 0 is not returned, the text takes
    over; a wattage of 0 found in the text is reported as absent; and of a
    text that says "15 w" before "100W" the result is 15, the first number
    followed by W after a blank, not the largest number written right
    before a W. *)
Lemma getNormalizedPowerWatts_differs :
  (power_max (electrical zero_declared) = Some 0%Q /\
   getNormalizedPowerWatts zero_declared = Some 100%Q) /\
  (power_max (electrical zero_in_text) = None /\
   map stated_wattage (Object_values zero_in_text) = [Some 0%Q] /\
   getNormalizedPowerWatts zero_in_text = None) /\
  (power_max (electrical undeclared_15_100) = None /\
   power_delivery pd_15_100 = Some "15 w default, 100W with e-marker" /\
   getNormalizedPowerWatts undeclared_15_100 = Some 15%Q).
Proof. repeat split. Qed.








(** The match array [dataRateMatch] of [searchCables]. *)
Definition dataRateMatch (query : string) : option Re.result :=
  Re.str_match true dataRate_re query.


















End Scans.
